(** * 3dXMMP: the streaming player of [source/player.c] and [source/main.c]

    A shallow embedding of the playback core of the Nintendo 3DS music
    player: the in-memory byte cursor handed to the Vorbis decoder
    ([mem_read_func], [mem_seek_func], [mem_tell_func], [mem_close_func]),
    the audio-frame callback ([myNdspCallback]) and the control functions
    ([playerInit], [playerPlay], [playerStop], [playerExit],
    [playerIsPlaying]).

    Target data model.  The program is built for the 3DS (ARM11, ILP32,
    it includes <3ds.h>): [unsigned int], [size_t] and [long] are 32 bits
    wide, [ogg_int64_t] is 64 bits wide.  Integers are modelled as [Z] with
    the conversions of the C code written out.

    What is outside the model: the contents of the PCM staging buffer
    (only its address is kept), the decoder algorithm of the Tremor library
    and the DSP service; the calls made to them are recorded in a log. *)

From Stdlib Require Import ZArith List Bool Lia.
From Stdlib Require Import Strings.Byte.
Import ListNotations.
Local Open Scope Z_scope.

(** ** C integer conversions *)

Module CInt.

(** 2^32: the number of values of [size_t] and [unsigned int]. *)
Definition SIZE_MODULUS : Z := 4294967296.

(** Conversion to [size_t] (also [unsigned int], [u32]): reduction
    modulo 2^32. *)
Definition to_size_t (z : Z) : Z := z mod SIZE_MODULUS.

(** Conversion of a [size_t] to [long] (32-bit two's complement). *)
Definition to_long (z : Z) : Z :=
  let u := z mod SIZE_MODULUS in
  if u <? 2147483648 then u else u - SIZE_MODULUS.

Definition INT64_MIN : Z := -9223372036854775808.
Definition INT64_MAX : Z := 9223372036854775807.

(** A value an [ogg_int64_t] can hold. *)
Definition in_int64 (z : Z) : bool := (INT64_MIN <=? z) && (z <=? INT64_MAX).

End CInt.
Import CInt.

(** ** The track record

    [typedef struct { const unsigned char* data; unsigned int size;
    size_t offset; } Track;]  The pointed-to array is kept as a list of
    bytes; [size] is a field of its own, as in the C struct. *)

Record Track : Type := mkTrack {
  data : list byte;
  size : Z;
  offset : Z
}.

Definition set_offset (o : Z) (track : Track) : Track :=
  {| data := data track; size := size track; offset := o |}.

(** [<stdio.h>] seek modes. *)
Definition SEEK_SET : Z := 0.
Definition SEEK_CUR : Z := 1.
Definition SEEK_END : Z := 2.

(** The bytes [memcpy(ptr, src + off, n)] copies out of the array [src].
    Reading outside the array is undefined in C: [None]. *)
Definition memcpy_from (src : list byte) (off n : Z) : option (list byte) :=
  if (0 <=? off) && (0 <=? n) && (off + n <=? Z.of_nat (length src))
  then Some (firstn (Z.to_nat n) (skipn (Z.to_nat off) src))
  else None.

(** ** The decoder's I/O callbacks *)

(** [mem_read_func(ptr, size, nmemb, datasource)]: the bytes stored
    through [ptr], the returned element count and the updated track.
    [sz] is the C parameter [size].  [None] is undefined behaviour: a copy
    that leaves the data array, or the division by a zero [size]. *)
Definition mem_read_func (sz nmemb : Z) (track : Track)
  : option (list byte * Z * Track) :=
  let bytes_to_read := to_size_t (sz * nmemb) in
  let bytes_to_read :=
    if to_size_t (offset track + bytes_to_read) >? size track
    then to_size_t (size track - offset track)
    else bytes_to_read in
  match memcpy_from (data track) (offset track) bytes_to_read with
  | None => None
  | Some copied =>
      if sz =? 0 then None
      else Some (copied, bytes_to_read / sz,
                 set_offset (to_size_t (offset track + bytes_to_read)) track)
  end.

(** [mem_seek_func(datasource, offset, whence)]: the returned status
    (0 or -1) and the updated track.  [off] is the C parameter [offset],
    an [ogg_int64_t].  The sum [track->offset + offset] is computed in
    [ogg_int64_t] (a 32-bit [size_t] converts to the wider signed type);
    [None] is a signed overflow, undefined in C. *)
Definition mem_seek_func (off whence : Z) (track : Track) : option (Z * Track) :=
  if whence =? SEEK_SET then
    if to_size_t off >? size track then Some (-1, track)
    else Some (0, set_offset (to_size_t off) track)
  else if whence =? SEEK_CUR then
    if negb (in_int64 (offset track + off)) then None
    else if offset track + off >? size track then Some (-1, track)
    else Some (0, set_offset (to_size_t (offset track + off)) track)
  else if whence =? SEEK_END then
    if off >? 0 then Some (-1, track)
    else if off =? INT64_MIN then None
    else if to_size_t (- off) >? size track then Some (-1, track)
    else Some (0, set_offset (to_size_t (size track + off)) track)
  else Some (-1, track).

(** [mem_close_func]: returns 0 and touches nothing. *)
Definition mem_close_func (track : Track) : Z * Track := (0, track).

(** [mem_tell_func]: [(long)track->offset]. *)
Definition mem_tell_func (track : Track) : Z := to_long (offset track).

(** The absolute offset a seek request asks for, as an unbounded integer:
    the "candidate" of the seek contract. *)
Definition seek_candidate (off whence : Z) (track : Track) : Z :=
  if whence =? SEEK_SET then off
  else if whence =? SEEK_CUR then offset track + off
  else size track + off.

(** A track whose [size] field is the length of its data array and fits
    an [unsigned int], with the cursor inside it. *)
Definition track_ok (track : Track) : Prop :=
  size track = Z.of_nat (length (data track)) /\
  size track < SIZE_MODULUS /\
  0 <= offset track <= size track.

(** ** The Tremor decoder as a client of the callbacks

    [ov_open_callbacks], [ov_read] and [ov_clear] belong to the Tremor
    library.  All they can do to the program's data is call the four
    callbacks on the datasource they were given, any finite number of times
    and depending on what comes back.  A library call is therefore a tree
    of callback invocations ending in the call's result. *)

Inductive lib_run (R : Type) : Type :=
| Return (r : R)
| Invoke_read (sz nmemb : Z) (k : list byte -> Z -> lib_run R)
| Invoke_seek (off whence : Z) (k : Z -> lib_run R)
| Invoke_tell (k : Z -> lib_run R)
| Invoke_close (k : Z -> lib_run R).

Arguments Return {R} r.
Arguments Invoke_read {R} sz nmemb k.
Arguments Invoke_seek {R} off whence k.
Arguments Invoke_tell {R} k.
Arguments Invoke_close {R} k.

(** Running a library call against the track it is bound to.  [None]: one
    of the callbacks ran into undefined behaviour. *)
Fixpoint run_lib {R : Type} (p : lib_run R) (track : Track) : option (R * Track) :=
  match p with
  | Return r => Some (r, track)
  | Invoke_read sz nmemb k =>
      match mem_read_func sz nmemb track with
      | Some (copied, n, track') => run_lib (k copied n) track'
      | None => None
      end
  | Invoke_seek off whence k =>
      match mem_seek_func off whence track with
      | Some (r, track') => run_lib (k r) track'
      | None => None
      end
  | Invoke_tell k => run_lib (k (mem_tell_func track)) track
  | Invoke_close k =>
      let '(r, track') := mem_close_func track in run_lib (k r) track'
  end.

(** ** The wave buffer descriptor of libctru *)

Inductive wbuf_status : Type :=
| NDSP_WBUF_FREE      (* 0: what [memset] leaves *)
| NDSP_WBUF_QUEUED
| NDSP_WBUF_PLAYING
| NDSP_WBUF_DONE.

Definition wbuf_status_eqb (a b : wbuf_status) : bool :=
  match a, b with
  | NDSP_WBUF_FREE, NDSP_WBUF_FREE
  | NDSP_WBUF_QUEUED, NDSP_WBUF_QUEUED
  | NDSP_WBUF_PLAYING, NDSP_WBUF_PLAYING
  | NDSP_WBUF_DONE, NDSP_WBUF_DONE => true
  | _, _ => false
  end.

(** The fields of [ndspWaveBuf] the player writes; the others stay as
    [memset] leaves them. *)
Record ndspWaveBuf : Type := mkWaveBuf {
  data_vaddr : Z;          (* address of the samples, 0 = NULL *)
  nsamples : Z;
  looping : bool;
  status : wbuf_status
}.

(** [memset(&waveBuf, 0, sizeof(ndspWaveBuf))]. *)
Definition zero_waveBuf : ndspWaveBuf :=
  {| data_vaddr := 0; nsamples := 0; looping := false; status := NDSP_WBUF_FREE |}.

(** ** Calls that leave the program *)

Inductive lib_call : Type :=
| call_ov_open_callbacks (index : Z)
| call_ov_read
| call_ov_clear
| call_ndspInit
| call_ndspExit
| call_ndspSetOutputMode
| call_ndspChnReset
| call_ndspChnSetInterp
| call_ndspChnSetRate
| call_ndspChnSetFormat
| call_ndspChnSetMix
| call_ndspSetCallback
| call_ndspChnWaveBufAdd (wb : ndspWaveBuf)
| call_memalign
| call_free (addr : Z).

Definition is_WaveBufAdd (c : lib_call) : bool :=
  match c with call_ndspChnWaveBufAdd _ => true | _ => false end.

Definition is_ov_read (c : lib_call) : bool :=
  match c with call_ov_read => true | _ => false end.

(** ** What the program is linked against

    The contents of an [OggVorbis_File] ([decoder], with [vf_zero] the
    zeroed struct of static storage) and Tremor's three entry points on it,
    each returning the new contents of the handle with its result, what the DSP
    service leaves in a descriptor handed to [ndspChnWaveBufAdd], the
    address [memalign] returns (it may depend on the calls made so far),
    and the embedded assets of [track1.h] .. [track3.h]. *)
Class Platform : Type := {
  decoder : Type;
  vf_zero : decoder;
  ov_open_callbacks : lib_run (Z * decoder);
  ov_read : decoder -> lib_run (Z * decoder);
  ov_clear : decoder -> lib_run decoder;
  ndspChnWaveBufAdd : ndspWaveBuf -> ndspWaveBuf;
  memalign : list lib_call -> Z;
  track1_ogg : list byte;  track1_ogg_len : Z;
  track2_ogg : list byte;  track2_ogg_len : Z;
  track3_ogg : list byte;  track3_ogg_len : Z
}.

(** [static Track tracks[3]]. *)
Record Tracks : Type := mkTracks {
  track_0 : Track;
  track_1 : Track;
  track_2 : Track
}.

Definition NUM_TRACKS : Z := 3.

(** [tracks[i]], defined for the indices of the array only. *)
Definition get_track (i : Z) (a : Tracks) : option Track :=
  if i =? 0 then Some (track_0 a)
  else if i =? 1 then Some (track_1 a)
  else if i =? 2 then Some (track_2 a)
  else None.

Definition set_track (i : Z) (t : Track) (a : Tracks) : Tracks :=
  if i =? 0 then {| track_0 := t; track_1 := track_1 a; track_2 := track_2 a |}
  else if i =? 1 then {| track_0 := track_0 a; track_1 := t; track_2 := track_2 a |}
  else if i =? 2 then {| track_0 := track_0 a; track_1 := track_1 a; track_2 := t |}
  else a.

Section Player.

Context {P : Platform}.

(** [static OggVorbis_File vf]: the contents of the handle as Tremor left
    them, and the datasource it was last opened on ([Some i] for
    [&tracks[i]], [None] before the first open).  Whenever the program
    enters the library with this handle, the library may call the callbacks
    on that datasource. *)
Record OggVorbis_File : Type := mkVf {
  datasource : option Z;
  handle : decoder
}.

(** The file-scope variables of [player.c], the [static bool playing] of
    [main.c] (a second object with the same name: both are [static], so
    each translation unit has its own), and the log of outside calls,
    most recent first. *)
Record State : Type := mkState {
  tracks : Tracks;
  vf : OggVorbis_File;
  playing : bool;
  audio_initialized : bool;
  audio_buffer : Z;
  current_track : Z;
  waveBuf : ndspWaveBuf;
  main_playing : bool;
  calls : list lib_call
}.

Definition set_tracks (x : Tracks) (st : State) : State :=
  mkState x (vf st) (playing st) (audio_initialized st) (audio_buffer st)
          (current_track st) (waveBuf st) (main_playing st) (calls st).
Definition set_vf (x : OggVorbis_File) (st : State) : State :=
  mkState (tracks st) x (playing st) (audio_initialized st) (audio_buffer st)
          (current_track st) (waveBuf st) (main_playing st) (calls st).
Definition set_playing (x : bool) (st : State) : State :=
  mkState (tracks st) (vf st) x (audio_initialized st) (audio_buffer st)
          (current_track st) (waveBuf st) (main_playing st) (calls st).
Definition set_audio_initialized (x : bool) (st : State) : State :=
  mkState (tracks st) (vf st) (playing st) x (audio_buffer st)
          (current_track st) (waveBuf st) (main_playing st) (calls st).
Definition set_audio_buffer (x : Z) (st : State) : State :=
  mkState (tracks st) (vf st) (playing st) (audio_initialized st) x
          (current_track st) (waveBuf st) (main_playing st) (calls st).
Definition set_current_track (x : Z) (st : State) : State :=
  mkState (tracks st) (vf st) (playing st) (audio_initialized st) (audio_buffer st)
          x (waveBuf st) (main_playing st) (calls st).
Definition set_waveBuf (x : ndspWaveBuf) (st : State) : State :=
  mkState (tracks st) (vf st) (playing st) (audio_initialized st) (audio_buffer st)
          (current_track st) x (main_playing st) (calls st).
Definition log_call (c : lib_call) (st : State) : State :=
  mkState (tracks st) (vf st) (playing st) (audio_initialized st) (audio_buffer st)
          (current_track st) (waveBuf st) (main_playing st) (c :: calls st).

(** The state at program start: static storage is zeroed, apart from the
    initialisers [playing = false], [audio_buffer = NULL],
    [current_track = -1]. *)
Definition zero_track : Track := {| data := []; size := 0; offset := 0 |}.

Definition initial_state : State :=
  {| tracks := mkTracks zero_track zero_track zero_track;
     vf := {| datasource := None; handle := vf_zero |};
     playing := false;
     audio_initialized := false;
     audio_buffer := 0;
     current_track := -1;
     waveBuf := zero_waveBuf;
     main_playing := false;
     calls := [] |}.

(** *** Results of a function of the program

    [Done a st]: it returned [a] in state [st].  [Undefined st]: it ran
    into undefined behaviour; [st] is the state it had reached. *)
Inductive outcome (A : Type) : Type :=
| Done (a : A) (st : State)
| Undefined (st : State).

Arguments Done {A} a st.
Arguments Undefined {A} st.

Definition M (A : Type) : Type := State -> outcome A.

Definition ret {A : Type} (a : A) : M A := fun st => Done a st.

Definition bind {A B : Type} (m : M A) (f : A -> M B) : M B :=
  fun st => match m st with
            | Done a st' => f a st'
            | Undefined st' => Undefined st'
            end.

Definition get : M State := fun st => Done st st.
Definition modify (f : State -> State) : M unit := fun st => Done tt (f st).
Definition undefined {A : Type} : M A := fun st => Undefined st.

End Player.

Arguments Done {P A} a st.
Arguments Undefined {P A} st.

Declare Scope player_scope.
Delimit Scope player_scope with player.
Notation "x <- m ;; k" := (bind m (fun x => k))
  (at level 100, m at next level, right associativity) : player_scope.
Notation "m ;; k" := (bind m (fun _ => k))
  (at level 100, right associativity) : player_scope.

Section Operations.

Context {P : Platform}.
Local Open Scope player_scope.

(** A Tremor entry point run on the datasource it holds.  The callbacks
    dereference the datasource: calling one without a datasource, or on one
    that is not an element of the array, is undefined behaviour, as is a
    callback that runs into it. *)
Definition call_library {R : Type} (p : lib_run R) (ds : option Z) : M R :=
  fun st =>
    match ds with
    | None =>
        match p with
        | Return r => Done r st
        | _ => Undefined st
        end
    | Some i =>
        match get_track i (tracks st) with
        | None => Undefined st
        | Some track =>
            match run_lib p track with
            | None => Undefined st
            | Some (r, track') =>
                Done r (set_tracks (set_track i track' (tracks st)) st)
            end
        end
    end.

(** [ov_open_callbacks(&tracks[index], &vf, NULL, 0, callbacks)]: the
    returned status; the handle is overwritten. *)
Definition do_ov_open_callbacks (index : Z) : M Z :=
  modify (log_call (call_ov_open_callbacks index)) ;;
  rd <- call_library ov_open_callbacks (Some index) ;;
  modify (set_vf {| datasource := Some index; handle := snd rd |}) ;;
  ret (fst rd).

(** [ov_read(&vf, (char* )audio_buffer, ..., &bitstream)]: the returned
    byte count. *)
Definition do_ov_read : M Z :=
  modify (log_call call_ov_read) ;;
  st <- get ;;
  rd <- call_library (ov_read (handle (vf st))) (datasource (vf st)) ;;
  modify (set_vf {| datasource := datasource (vf st); handle := snd rd |}) ;;
  ret (fst rd).

(** [ov_clear(&vf)]. *)
Definition do_ov_clear : M unit :=
  modify (log_call call_ov_clear) ;;
  st <- get ;;
  d <- call_library (ov_clear (handle (vf st))) (datasource (vf st)) ;;
  modify (set_vf {| datasource := datasource (vf st); handle := d |}).

(** [ndspChnWaveBufAdd(0, &waveBuf)]: the descriptor as it is handed
    over goes to the log; the service may write to it. *)
Definition do_ndspChnWaveBufAdd : M unit :=
  modify (fun st => log_call (call_ndspChnWaveBufAdd (waveBuf st)) st) ;;
  modify (fun st => set_waveBuf (ndspChnWaveBufAdd (waveBuf st)) st).

(** [tracks[index].offset = 0]: a write outside the array is undefined
    behaviour. *)
Definition reset_track_offset (index : Z) : M unit :=
  st <- get ;;
  match get_track index (tracks st) with
  | None => undefined
  | Some track => modify (set_tracks (set_track index (set_offset 0 track) (tracks st)))
  end.

(** *** [myNdspCallback] *)
Definition myNdspCallback : M unit :=
  st <- get ;;
  if negb (playing st) || negb (wbuf_status_eqb (status (waveBuf st)) NDSP_WBUF_DONE)
  then ret tt
  else
    bytesRead <- do_ov_read ;;
    if bytesRead <=? 0 then modify (set_playing false)
    else
      modify (fun st =>
        set_waveBuf {| data_vaddr := audio_buffer st;
                       nsamples := to_size_t bytesRead / 2 / 2;
                       looping := false;
                       status := NDSP_WBUF_FREE |} st) ;;
      do_ndspChnWaveBufAdd.

(** *** [playerInit] *)
Definition playerInit : M unit :=
  st <- get ;;
  if audio_initialized st then ret tt
  else
    modify (set_tracks
      {| track_0 := {| data := track1_ogg; size := track1_ogg_len; offset := 0 |};
         track_1 := {| data := track2_ogg; size := track2_ogg_len; offset := 0 |};
         track_2 := {| data := track3_ogg; size := track3_ogg_len; offset := 0 |} |}) ;;
    modify (log_call call_ndspInit) ;;
    modify (log_call call_ndspSetOutputMode) ;;
    modify (log_call call_ndspChnReset) ;;
    modify (fun st => set_audio_buffer (memalign (calls st)) (log_call call_memalign st)) ;;
    (* memset(audio_buffer, 0, ...): [memalign] may have returned NULL, and
       writing through NULL is undefined behaviour *)
    (st <- get ;; if audio_buffer st =? 0 then undefined else ret tt) ;;
    modify (log_call call_ndspChnSetInterp) ;;
    modify (log_call call_ndspChnSetRate) ;;
    modify (log_call call_ndspChnSetFormat) ;;
    modify (log_call call_ndspChnSetMix) ;;
    modify (log_call call_ndspSetCallback) ;;
    modify (set_audio_initialized true).

(** *** [playerStop] *)
Definition playerStop : M unit :=
  st <- get ;;
  if negb (playing st) then ret tt
  else
    do_ov_clear ;;
    modify (log_call call_ndspChnReset) ;;
    modify (set_playing false).

(** *** [playerPlay] *)
Definition playerPlay (index : Z) : M unit :=
  st <- get ;;
  (if playing st then playerStop else ret tt) ;;
  modify (set_current_track index) ;;
  reset_track_offset index ;;
  r <- do_ov_open_callbacks index ;;
  if r <? 0 then ret tt
  else
    modify (fun st =>
      set_waveBuf {| data_vaddr := audio_buffer st;
                     nsamples := 0;
                     looping := false;
                     status := NDSP_WBUF_DONE |} st) ;;
    do_ndspChnWaveBufAdd ;;
    modify (set_playing true).

(** *** [playerExit] *)
Definition playerExit : M unit :=
  st <- get ;;
  (if playing st then playerStop else ret tt) ;;
  st <- get ;;
  if audio_initialized st then
    modify (log_call call_ndspChnReset) ;;
    modify (log_call call_ndspExit) ;;
    modify (fun st => log_call (call_free (audio_buffer st)) st) ;;
    modify (set_audio_buffer 0) ;;
    modify (set_audio_initialized false)
  else ret tt.

(** *** [playerIsPlaying], defined in [main.c]: it returns the
    [playing] of [main.c]. *)
Definition playerIsPlaying : M bool :=
  st <- get ;; ret (main_playing st).

(** *** Observations used in the statements *)

(** The number of wave buffers handed to the DSP so far. *)
Definition submissions (st : State) : nat :=
  length (filter is_WaveBufAdd (calls st)).

(** The number of decode requests made so far. *)
Definition decodes (st : State) : nat :=
  length (filter is_ov_read (calls st)).

(** What the registry holds of a track apart from the cursor. *)
Definition track_content (t : Track) : list byte * Z := (data t, size t).

Definition registry_content (st : State) : list (list byte * Z) :=
  [ track_content (track_0 (tracks st));
    track_content (track_1 (tracks st));
    track_content (track_2 (tracks st)) ].

(** The state a function leaves, whether it returned or not. *)
Definition final_state {A : Type} (o : outcome A) : State :=
  match o with Done _ st => st | Undefined st => st end.

(** The DSP service reports progress by writing the descriptor's
    [status] between two runs of the callback. *)
Definition dsp_sets_status (s : wbuf_status) (st : State) : State :=
  set_waveBuf {| data_vaddr := data_vaddr (waveBuf st);
                 nsamples := nsamples (waveBuf st);
                 looping := looping (waveBuf st);
                 status := s |} st.

(** What can happen once a track has ended: the service touches the
    status, or the frame callback runs. *)
Inductive later_step : Type :=
| step_status (s : wbuf_status)
| step_callback.

Fixpoint run_later (steps : list later_step) : M unit :=
  match steps with
  | [] => ret tt
  | step_status s :: rest => modify (dsp_sets_status s) ;; run_later rest
  | step_callback :: rest => myNdspCallback ;; run_later rest
  end.

(** The guard [if (playing) playerStop();] that opens [playerPlay] and
    [playerExit]. *)
Definition stopped_first (st : State) : outcome unit :=
  if playing st then playerStop st else Done tt st.

(** ** Observations a function leaves alone

    [keeps obs m]: whatever [m] does, and whether it returns or not, the
    observation [obs] of the state is afterwards what it was. *)

Definition keeps {X A : Type} (obs : State -> X) (m : M A) : Prop :=
  forall st, obs (final_state (m st)) = obs st.

(** An observation that does not look at the track array. *)
Definition ignores_tracks {X : Type} (obs : State -> X) : Prop :=
  forall x st, obs (set_tracks x st) = obs st.

End Operations.

(** ** A small platform to run the program on

    A stand-in decoder with the shape of a real one: opening reads a
    four-byte header and accepts the stream when it is the Ogg capture
    pattern "OggS"; each decode request on an open handle reads up to four
    bytes and returns how many it got as the number of PCM bytes, and is
    refused on a closed one; clearing calls the close callback.  The DSP
    stand-in follows libctru: a descriptor without samples is ignored, any
    other is marked queued. *)
Module Demo.

Definition OV_EINVAL : Z := -131.
Definition OV_ENOTVORBIS : Z := -132.

Inductive demo_handle : Type := Closed | Open.

Definition is_OggS (l : list byte) : bool :=
  match l with
  | [b1; b2; b3; b4] =>
      Byte.eqb b1 x4f && Byte.eqb b2 x67 && Byte.eqb b3 x67 && Byte.eqb b4 x53
  | _ => false
  end.

Definition demo_open : lib_run (Z * demo_handle) :=
  Invoke_read 1 4 (fun header _ =>
    if is_OggS header then Return (0, Open) else Return (OV_ENOTVORBIS, Closed)).

Definition demo_read (d : demo_handle) : lib_run (Z * demo_handle) :=
  match d with
  | Closed => Return (OV_EINVAL, Closed)
  | Open => Invoke_read 1 4 (fun _ n => Return (n, Open))
  end.

Definition demo_clear (d : demo_handle) : lib_run demo_handle :=
  match d with
  | Closed => Return Closed
  | Open => Invoke_close (fun _ => Return Closed)
  end.

Definition demo_WaveBufAdd (wb : ndspWaveBuf) : ndspWaveBuf :=
  if nsamples wb =? 0 then wb
  else {| data_vaddr := data_vaddr wb; nsamples := nsamples wb;
          looping := looping wb; status := NDSP_WBUF_QUEUED |}.

(** Track 1: a header and eight more bytes.  Track 2: not an Ogg
    stream.  Track 3: a header and nothing else. *)
Definition asset1 : list byte :=
  [x4f; x67; x67; x53; x01; x02; x03; x04; x05; x06; x07; x08].
Definition asset2 : list byte := [x52; x49; x46; x46; x00; x00].
Definition asset3 : list byte := [x4f; x67; x67; x53].

#[export] Instance platform : Platform :=
  {| decoder := demo_handle;
     vf_zero := Closed;
     ov_open_callbacks := demo_open;
     ov_read := demo_read;
     ov_clear := demo_clear;
     ndspChnWaveBufAdd := demo_WaveBufAdd;
     memalign := fun _ => 4096;
     track1_ogg := asset1; track1_ogg_len := 12;
     track2_ogg := asset2; track2_ogg_len := 6;
     track3_ogg := asset3; track3_ogg_len := 4 |}.

(** After [playerInit()]. *)
Definition ready : State := final_state (playerInit initial_state).

(** After [playerInit(); playerPlay(0)]. *)
Definition playing_track1 : State := final_state (playerPlay 0 ready).

(** After [playerInit(); playerPlay(2)]: track 3 is open and has no
    audio left. *)
Definition playing_track3 : State := final_state (playerPlay 2 ready).

(** Track 1 after the callback has refilled once. *)
Definition after_one_refill : State := final_state (myNdspCallback playing_track1).

(** Track 3 after the decode request that finds it exhausted. *)
Definition track3_exhausted : State := final_state (do_ov_read playing_track3).

(** A ten-byte track with the cursor in the middle. *)
Definition ten_bytes : Track :=
  {| data := [x00; x01; x02; x03; x04; x05; x06; x07; x08; x09];
     size := 10;
     offset := 5 |}.

End Demo.

(** ** The contracts as the specification words them

    Each is the statement of the specification, over the operations above;
    they are compared with what the code does further down. *)

(** Read: with [max_bytes = size * nmemb], the call copies
    [min(max_bytes, length - offset)] bytes starting at the cursor, advances
    the cursor by that amount and returns that count. *)
Definition read_contract (sz nmemb : Z) (track : Track) : Prop :=
  let n := Z.min (sz * nmemb) (size track - offset track) in
  mem_read_func sz nmemb track =
    Some (firstn (Z.to_nat n) (skipn (Z.to_nat (offset track)) (data track)),
          n,
          set_offset (offset track + n) track).

(** Seek: the request succeeds exactly when the candidate offset lies in
    [0, length], and a failed request leaves what [tell] reports unchanged. *)
Definition seek_contract (off whence : Z) (track : Track) : Prop :=
  exists r track',
    mem_seek_func off whence track = Some (r, track') /\
    (r = 0 <-> 0 <= seek_candidate off whence track <= size track) /\
    (r <> 0 -> mem_tell_func track' = mem_tell_func track).

(** Play on an invalid index: the call comes back and the playing flag, the
    current track, the bound decoder and the cursors are what they were. *)
Definition play_rejected_unchanged {P : Platform} (index : Z) (st : State) : Prop :=
  exists st',
    playerPlay index st = Done tt st' /\
    playing st' = playing st /\
    current_track st' = current_track st /\
    vf st' = vf st /\
    tracks st' = tracks st.

(** Play primes the channel: one chunk is decoded and submitted before the
    call returns, and the state is Playing. *)
Definition play_primes_by_decoding {P : Platform} (index : Z) (st : State) : Prop :=
  exists st',
    playerPlay index st = Done tt st' /\
    playing st' = true /\
    decodes st' = S (decodes st) /\
    submissions st' = S (submissions st).

(** Registry entries never change: the whole array of track records is
    after the operation what it was before. *)
Definition registry_entries_unchanged {P : Platform} {A : Type}
           (m : M A) (st : State) : Prop :=
  tracks (final_state (m st)) = tracks st.

(** Play, then the status query, answers "playing". *)
Definition play_then_is_playing {P : Platform} (index : Z) (st : State) : Prop :=
  exists st', bind (playerPlay index) (fun _ => playerIsPlaying) st = Done true st'.

(** ** Sequences of calls

    What a program linked with [player.c] can make happen to the player,
    one step at a time: it calls one of the four control functions, the DSP
    thread runs the frame callback, or the DSP service writes the status of
    the descriptor. *)

Inductive player_call : Type :=
| call_playerInit
| call_playerPlay (index : Z)
| call_playerStop
| call_playerExit
| call_myNdspCallback
| call_dsp_status (s : wbuf_status).

Section Calls.

Context {P : Platform}.
Local Open Scope player_scope.

Definition run_call (c : player_call) : M unit :=
  match c with
  | call_playerInit => playerInit
  | call_playerPlay index => playerPlay index
  | call_playerStop => playerStop
  | call_playerExit => playerExit
  | call_myNdspCallback => myNdspCallback
  | call_dsp_status s => modify (dsp_sets_status s)
  end.

Fixpoint run_calls (cs : list player_call) : M unit :=
  match cs with
  | [] => ret tt
  | c :: rest => run_call c ;; run_calls rest
  end.

(** While [playing] is set, the decoder handle is bound to
    [&tracks[current_track]] and [current_track] indexes the array. *)
Definition session_bound (st : State) : Prop :=
  playing st = true ->
  datasource (vf st) = Some (current_track st) /\
  0 <= current_track st < NUM_TRACKS.

(** What [session_bound] looks at. *)
Definition session (st : State) : bool * option Z * Z :=
  (playing st, datasource (vf st), current_track st).

(** A function that starts no session: it leaves playback stopped, or it
    leaves [playing], the bound datasource and [current_track] alone. *)
Definition starts_no_session {A : Type} (m : M A) : Prop :=
  forall st,
    playing (final_state (m st)) = false \/
    session (final_state (m st)) = session st.

End Calls.

(** ** The callback in the middle of a control function

    [player.c] takes no lock: the DSP thread can run the frame callback
    between any two statements of [playerStop] or [playerPlay].  Here the
    callback runs as a whole at one statement boundary, the point [pt];
    the boundaries are numbered in program order. *)

Section Interleaving.

Context {P : Platform}.
Local Open Scope player_scope.








End Interleaving.

(** ** The interface loop of [main.c]

    The parts of [main.c] that are integer and text manipulation: the
    track selection of the d-pad keys and the on-screen log.  Positions and
    durations are floating point and stay outside. *)

(** [selectedTrack = (selectedTrack + 1) % NUM_TRACKS] (d-pad right);
    [%] on [int] truncates toward zero. *)
Definition select_next (selectedTrack : Z) : Z :=
  Z.rem (selectedTrack + 1) NUM_TRACKS.

(** [selectedTrack = (selectedTrack + NUM_TRACKS - 1) % NUM_TRACKS]
    (d-pad left). *)
Definition select_prev (selectedTrack : Z) : Z :=
  Z.rem (selectedTrack + NUM_TRACKS - 1) NUM_TRACKS.

Inductive dpad_key : Type := KEY_DRIGHT | KEY_DLEFT.

Definition press (k : dpad_key) (selectedTrack : Z) : Z :=
  match k with
  | KEY_DRIGHT => select_next selectedTrack
  | KEY_DLEFT => select_prev selectedTrack
  end.

(** The selection after a series of key presses, first press first. *)
Definition press_all (keys : list dpad_key) (selectedTrack : Z) : Z :=
  fold_left (fun sel k => press k sel) keys selectedTrack.

Definition DEBUG_LOG_LINES : Z := 8.
Definition DEBUG_LOG_LINE_LENGTH : Z := 64.

(** [static char debugLog[8][64]] with [static int debugLogIndex]: each
    line is kept as the text before its terminating NUL. *)
Record DebugLog : Type := mkDebugLog {
  debugLog : list (list byte);
  debugLogIndex : Z
}.

(** Static storage: eight empty lines, index 0. *)
Definition debugLog_zero : DebugLog :=
  {| debugLog := repeat [] 8; debugLogIndex := 0 |}.

(** [debugLog[i]] overwritten with [line]; an index outside the array is
    undefined behaviour: [None]. *)
Definition store_line (i : Z) (line : list byte) (lines : list (list byte))
  : option (list (list byte)) :=
  if (0 <=? i) && (i <? Z.of_nat (length lines))
  then Some (firstn (Z.to_nat i) lines ++ line :: skipn (S (Z.to_nat i)) lines)
  else None.

(** The text of a C string: the bytes before its first NUL. *)
Fixpoint c_text (bytes : list byte) : list byte :=
  match bytes with
  | [] => []
  | b :: rest => if Byte.eqb b x00 then [] else b :: c_text rest
  end.

(** What [vsnprintf(buf, DEBUG_LOG_LINE_LENGTH, fmt, args)] leaves in
    [buf], read as a C string, when the format expands to the bytes
    [formatted]: at most 63 bytes are stored before the terminating NUL, and
    the text ends at the first NUL among them. *)
Definition vsnprintf_line (formatted : list byte) : list byte :=
  c_text (firstn (Z.to_nat (DEBUG_LOG_LINE_LENGTH - 1)) formatted).

(** [debug_log(fmt, ...)], with [formatted] the expansion of the format. *)
Definition debug_log (formatted : list byte) (s : DebugLog) : option DebugLog :=
  match store_line (debugLogIndex s) (vsnprintf_line formatted) (debugLog s) with
  | None => None
  | Some lines =>
      Some {| debugLog := lines;
              debugLogIndex := Z.rem (debugLogIndex s + 1) DEBUG_LOG_LINES |}
  end.

(** Several messages logged one after the other. *)
Fixpoint debug_log_all (messages : list (list byte)) (s : DebugLog) : option DebugLog :=
  match messages with
  | [] => Some s
  | m :: rest =>
      match debug_log m s with
      | None => None
      | Some s' => debug_log_all rest s'
      end
  end.

(** [render_debug_log]: the texts drawn, top to bottom, each with its
    baseline [10 + i * 16]. *)
Definition render_debug_log (s : DebugLog) : list (Z * list byte) :=
  map (fun i =>
         (10 + i * 16,
          nth (Z.to_nat (Z.rem (debugLogIndex s + i) DEBUG_LOG_LINES)) (debugLog s) []))
      [0; 1; 2; 3; 4; 5; 6; 7].

(** The log array has its eight lines and the index points into it. *)
Definition debugLog_ok (s : DebugLog) : Prop :=
  length (debugLog s) = 8%nat /\ 0 <= debugLogIndex s < DEBUG_LOG_LINES.

(** * Properties of the byte cursor *)

Section CursorFacts.

Lemma to_size_t_small (z : Z) : 0 <= z < SIZE_MODULUS -> to_size_t z = z.
Proof. intros H. unfold to_size_t. now apply Z.mod_small. Qed.

Lemma set_offset_same (track : Track) : set_offset (offset track) track = track.
Proof. now destruct track. Qed.

Lemma memcpy_from_inside (src : list byte) (off n : Z) :
  0 <= off -> 0 <= n -> off + n <= Z.of_nat (length src) ->
  memcpy_from src off n = Some (firstn (Z.to_nat n) (skipn (Z.to_nat off) src)).
Proof.
  intros Hoff Hn Hin. unfold memcpy_from.
  replace (0 <=? off) with true by (symmetry; now apply Z.leb_le).
  replace (0 <=? n) with true by (symmetry; now apply Z.leb_le).
  replace (off + n <=? Z.of_nat (length src)) with true
    by (symmetry; now apply Z.leb_le).
  reflexivity.
Qed.

Lemma slice_length (src : list byte) (off n : Z) :
  0 <= off -> 0 <= n -> off + n <= Z.of_nat (length src) ->
  Z.of_nat (length (firstn (Z.to_nat n) (skipn (Z.to_nat off) src))) = n.
Proof.
  intros Hoff Hn Hin.
  rewrite length_firstn, length_skipn. lia.
Qed.

(** The clamped request of [mem_read_func] when nothing wraps. *)
Lemma read_clamp (sz nmemb : Z) (track : Track) :
  track_ok track -> 1 <= sz -> 0 <= nmemb ->
  offset track + sz * nmemb < SIZE_MODULUS ->
  (if to_size_t (offset track + to_size_t (sz * nmemb)) >? size track
   then to_size_t (size track - offset track)
   else to_size_t (sz * nmemb))
  = Z.min (sz * nmemb) (size track - offset track).
Proof.
  intros (Hlen & Hfit & Hcur) Hsz Hn Hsum.
  assert (0 <= sz * nmemb) by nia.
  rewrite (to_size_t_small (sz * nmemb)) by lia.
  rewrite (to_size_t_small (offset track + sz * nmemb)) by lia.
  destruct (Z.gtb_spec (offset track + sz * nmemb) (size track)).
  - rewrite to_size_t_small by lia. lia.
  - lia.
Qed.

(** A seek that reports failure has not touched the track. *)
Lemma mem_seek_func_failure_noop (off whence r : Z) (track track' : Track) :
  mem_seek_func off whence track = Some (r, track') -> r <> 0 -> track' = track.
Proof.
  unfold mem_seek_func. intros H Hr.
  repeat match type of H with
         | (if ?c then _ else _) = _ => destruct c
         end;
    inversion H; subst; congruence.
Qed.

(** An absolute seek within 32 bits succeeds exactly on [0 .. size]. *)
Lemma mem_seek_func_SEEK_SET_iff (off : Z) (track : Track) :
  track_ok track -> - SIZE_MODULUS + size track < off < SIZE_MODULUS ->
  (exists track', mem_seek_func off SEEK_SET track = Some (0, track'))
  <-> 0 <= off <= size track.
Proof.
  intros (Hlen & Hfit & Hcur) Hoff. unfold mem_seek_func, SEEK_SET. simpl (0 =? 0).
  destruct (Z.gtb_spec (to_size_t off) (size track)) as [Hgt | Hle].
  - split.
    + intros (t & Ht). discriminate.
    + intros Hin. rewrite to_size_t_small in Hgt by lia. lia.
  - split.
    + intros _. unfold to_size_t, SIZE_MODULUS in *.
      destruct (Z.neg_nonneg_cases off) as [Hneg | Hpos].
      * replace off with (off + 4294967296 + (-1) * 4294967296) in Hle by lia.
        rewrite Z.mod_add in Hle by lia.
        rewrite Z.mod_small in Hle by lia. lia.
      * rewrite Z.mod_small in Hle by lia. lia.
    + intros _. eexists. reflexivity.
Qed.

(** A seek relative to the end within 32 bits succeeds exactly when the
    candidate lies in [0 .. size]. *)
Lemma mem_seek_func_SEEK_END_iff (off : Z) (track : Track) :
  track_ok track -> - SIZE_MODULUS < off < SIZE_MODULUS ->
  (exists track', mem_seek_func off SEEK_END track = Some (0, track'))
  <-> 0 <= seek_candidate off SEEK_END track <= size track.
Proof.
  intros (Hlen & Hfit & Hcur) Hoff.
  unfold mem_seek_func, seek_candidate, SEEK_END, SEEK_SET, SEEK_CUR.
  simpl (2 =? 0). simpl (2 =? 1). simpl (2 =? 2). cbv iota.
  destruct (Z.gtb_spec off 0) as [Hgt | Hle].
  - split; [intros (t & Ht); discriminate | lia].
  - destruct (Z.eqb_spec off INT64_MIN) as [Hmin | Hmin].
    + unfold INT64_MIN, SIZE_MODULUS in *. lia.
    + rewrite (to_size_t_small (- off)) by lia.
      destruct (Z.gtb_spec (- off) (size track)).
      * split; [intros (t & Ht); discriminate | lia].
      * split; [lia | intros _; eexists; reflexivity].
Qed.

End CursorFacts.

(** C4, as amended.  [mem_read_func(ptr, size, nmemb, track)] on a
    well-formed track, with element size at least 1 and a request
    [size * nmemb] that does not carry the cursor past the range of
    [size_t]: it copies exactly [min(size * nmemb, length - offset)] bytes
    starting at the cursor, advances the cursor by that many bytes, and
    returns that byte count divided by the element size (the number of whole
    elements, which is the byte count when the element size is 1).  At end
    of data it copies nothing, returns 0 and leaves the track as it was. *)
Theorem mem_read_func_spec (sz nmemb : Z) (track : Track) :
  track_ok track -> 1 <= sz -> 0 <= nmemb ->
  offset track + sz * nmemb < SIZE_MODULUS ->
  let n := Z.min (sz * nmemb) (size track - offset track) in
  let copied := firstn (Z.to_nat n) (skipn (Z.to_nat (offset track)) (data track)) in
  mem_read_func sz nmemb track
    = Some (copied, n / sz, set_offset (offset track + n) track)
  /\ Z.of_nat (length copied) = n
  /\ (sz = 1 -> n / sz = n)
  /\ (offset track = size track ->
      copied = [] /\ n / sz = 0 /\ set_offset (offset track + n) track = track).
Proof.
  intros Hok Hsz Hn Hsum n copied.
  pose proof (read_clamp sz nmemb track Hok Hsz Hn Hsum) as Hclamp.
  destruct Hok as (Hlen & Hfit & Hcur).
  assert (Hn0 : 0 <= n) by (subst n; nia).
  assert (Hin : offset track + n <= Z.of_nat (length (data track))) by (subst n; lia).
  repeat split.
  - unfold mem_read_func. rewrite Hclamp. fold n.
    rewrite memcpy_from_inside by lia. fold copied.
    destruct (Z.eqb_spec sz 0) as [H0 | _]; [lia |].
    rewrite to_size_t_small by lia. reflexivity.
  - subst copied. apply slice_length; lia.
  - intros ->. apply Z.div_1_r.
  - subst copied. replace n with 0 by (subst n; lia). reflexivity.
  - replace n with 0 by (subst n; lia). apply Z.div_0_l. lia.
  - replace n with 0 by (subst n; lia). rewrite Z.add_0_r. apply set_offset_same.
Qed.

(** * Properties of the player *)

Section PlayerFacts.

Context {P : Platform}.
Local Open Scope player_scope.

(** ** The registry under the decoder's callbacks *)

Lemma mem_read_func_content (sz nmemb : Z) (track : Track) copied n track' :
  mem_read_func sz nmemb track = Some (copied, n, track') ->
  track_content track' = track_content track.
Proof.
  unfold mem_read_func. intros H.
  destruct (memcpy_from _ _ _); [| discriminate].
  destruct (sz =? 0); [discriminate |].
  inversion H; subst. reflexivity.
Qed.

Lemma mem_seek_func_content (off whence : Z) (track : Track) r track' :
  mem_seek_func off whence track = Some (r, track') ->
  track_content track' = track_content track.
Proof.
  unfold mem_seek_func. intros H.
  repeat match type of H with
         | (if ?c then _ else _) = _ => destruct c
         end;
    inversion H; subst; reflexivity.
Qed.

Lemma run_lib_content {R : Type} (p : lib_run R) :
  forall track r track',
    run_lib p track = Some (r, track') ->
    track_content track' = track_content track.
Proof.
  induction p as [r0 | sz nmemb k IH | off whence k IH | k IH | k IH];
    intros track r track' Hrun; simpl in Hrun.
  - inversion Hrun; subst. reflexivity.
  - destruct (mem_read_func sz nmemb track) as [[[copied n] t1] |] eqn:Hread;
      [| discriminate].
    rewrite (IH _ _ _ _ _ Hrun). eapply mem_read_func_content; eassumption.
  - destruct (mem_seek_func off whence track) as [[s t1] |] eqn:Hseek;
      [| discriminate].
    rewrite (IH _ _ _ _ Hrun). eapply mem_seek_func_content; eassumption.
  - eapply IH; eassumption.
  - eapply IH; eassumption.
Qed.

Lemma get_track_in_range (i : Z) (a : Tracks) :
  0 <= i < NUM_TRACKS -> exists t, get_track i a = Some t.
Proof.
  unfold NUM_TRACKS, get_track. intros Hi.
  destruct (Z.eqb_spec i 0); [eauto |].
  destruct (Z.eqb_spec i 1); [eauto |].
  destruct (Z.eqb_spec i 2); [eauto | lia].
Qed.

Lemma get_track_out_of_range (i : Z) (a : Tracks) :
  ~ (0 <= i < NUM_TRACKS) -> get_track i a = None.
Proof.
  unfold NUM_TRACKS, get_track. intros Hi.
  destruct (Z.eqb_spec i 0); [lia |].
  destruct (Z.eqb_spec i 1); [lia |].
  destruct (Z.eqb_spec i 2); [lia | reflexivity].
Qed.

Lemma get_set_track (i : Z) (t t' : Track) (a : Tracks) :
  get_track i a = Some t -> get_track i (set_track i t' a) = Some t'.
Proof.
  unfold get_track, set_track.
  destruct (i =? 0); [reflexivity |].
  destruct (i =? 1); [reflexivity |].
  destruct (i =? 2); [reflexivity | discriminate].
Qed.

Lemma set_track_content (i : Z) (t t' : Track) (a : Tracks) (st : State) :
  get_track i a = Some t ->
  track_content t' = track_content t ->
  a = tracks st ->
  registry_content (set_tracks (set_track i t' a) st) = registry_content st.
Proof.
  unfold get_track, set_track, registry_content. intros Hget Hsame ->.
  destruct (i =? 0); [inversion Hget; subst; simpl; now rewrite Hsame |].
  destruct (i =? 1); [inversion Hget; subst; simpl; now rewrite Hsame |].
  destruct (i =? 2); [inversion Hget; subst; simpl; now rewrite Hsame |].
  discriminate.
Qed.

(** ** Observations a function leaves alone *)

Section Keeps.

Context {X : Type} (obs : State -> X).

Lemma keeps_ret {A : Type} (a : A) : keeps obs (ret a).
Proof. intros st. reflexivity. Qed.

Lemma keeps_get : keeps obs get.
Proof. intros st. reflexivity. Qed.

Lemma keeps_undefined {A : Type} : keeps obs (@undefined P A).
Proof. intros st. reflexivity. Qed.

Lemma keeps_modify (f : State -> State) :
  (forall st, obs (f st) = obs st) -> keeps obs (modify f).
Proof. intros Hf st. apply Hf. Qed.

Lemma keeps_bind {A B : Type} (m : M A) (f : A -> M B) :
  keeps obs m -> (forall a, keeps obs (f a)) -> keeps obs (bind m f).
Proof.
  intros Hm Hf st. unfold bind. specialize (Hm st).
  destruct (m st) as [a st' | st']; simpl in Hm.
  - now rewrite Hf.
  - exact Hm.
Qed.

Lemma keeps_call_library_other {R : Type} (p : lib_run R) (ds : option Z) :
  ignores_tracks obs -> keeps obs (call_library p ds).
Proof.
  intros Hobs st. unfold call_library.
  destruct ds as [i |]; [| destruct p; reflexivity].
  destruct (get_track i (tracks st)) as [track |]; [| reflexivity].
  destruct (run_lib p track) as [[r track'] |]; [| reflexivity].
  apply Hobs.
Qed.

Lemma keeps_reset_track_offset_other (index : Z) :
  ignores_tracks obs -> keeps obs (reset_track_offset index).
Proof.
  intros Hobs st. unfold reset_track_offset, bind, get, modify, undefined.
  destruct (get_track index (tracks st)) as [track |]; [| reflexivity].
  apply Hobs.
Qed.

End Keeps.

Lemma keeps_call_library {R : Type} (p : lib_run R) (ds : option Z) :
  keeps registry_content (call_library p ds).
Proof.
  intros st. unfold call_library.
  destruct ds as [i |]; [| destruct p; reflexivity].
  destruct (get_track i (tracks st)) as [track |] eqn:Hget; [| reflexivity].
  destruct (run_lib p track) as [[r track'] |] eqn:Hrun; [| reflexivity].
  simpl. eapply set_track_content; eauto using run_lib_content.
Qed.

Lemma keeps_reset_track_offset (index : Z) :
  keeps registry_content (reset_track_offset index).
Proof.
  intros st. unfold reset_track_offset, bind, get, modify, undefined.
  destruct (get_track index (tracks st)) as [track |] eqn:Hget; [| reflexivity].
  simpl. eapply set_track_content; eauto.
Qed.

Lemma main_playing_ignores_tracks : ignores_tracks main_playing.
Proof. intros x st. reflexivity. Qed.

Lemma decodes_ignores_tracks : ignores_tracks decodes.
Proof. intros x st. reflexivity. Qed.

Lemma submissions_ignores_tracks : ignores_tracks submissions.
Proof. intros x st. reflexivity. Qed.

(** One step through the structure of a function of the program. *)
Ltac keeps_step :=
  first
    [ apply keeps_ret
    | apply keeps_get
    | apply keeps_undefined
    | apply keeps_call_library
    | apply keeps_reset_track_offset
    | apply keeps_call_library_other;
        first [ apply main_playing_ignores_tracks | apply decodes_ignores_tracks
              | apply submissions_ignores_tracks ]
    | apply keeps_reset_track_offset_other;
        first [ apply main_playing_ignores_tracks | apply decodes_ignores_tracks
              | apply submissions_ignores_tracks ]
    | apply keeps_modify; intros ?; reflexivity
    | apply keeps_bind; [| intros ?]
    | match goal with
      | |- keeps _ (if ?c then _ else _) => destruct c
      | |- keeps _ (match ?x with Some _ => _ | None => _ end) =>
          destruct x as [[? ?] |]
      end ].

Ltac keeps_all :=
  repeat first [ assumption | keeps_step ].

(** *** The bytes and length of every entry *)

Lemma registry_do_ov_read : keeps registry_content do_ov_read.
Proof. unfold do_ov_read. keeps_all. Qed.

Lemma registry_do_ov_clear : keeps registry_content do_ov_clear.
Proof. unfold do_ov_clear. keeps_all. Qed.

Lemma registry_do_ov_open_callbacks (index : Z) :
  keeps registry_content (do_ov_open_callbacks index).
Proof. unfold do_ov_open_callbacks. keeps_all. Qed.

Lemma registry_do_ndspChnWaveBufAdd : keeps registry_content do_ndspChnWaveBufAdd.
Proof. unfold do_ndspChnWaveBufAdd. keeps_all. Qed.

Lemma registry_playerStop : keeps registry_content playerStop.
Proof.
  pose proof registry_do_ov_clear. unfold playerStop. keeps_all.
Qed.

Lemma registry_playerPlay (index : Z) : keeps registry_content (playerPlay index).
Proof.
  pose proof registry_playerStop.
  pose proof (registry_do_ov_open_callbacks index).
  pose proof registry_do_ndspChnWaveBufAdd.
  unfold playerPlay. keeps_all.
Qed.

Lemma registry_playerExit : keeps registry_content playerExit.
Proof.
  pose proof registry_playerStop. unfold playerExit. keeps_all.
Qed.

Lemma registry_myNdspCallback : keeps registry_content myNdspCallback.
Proof.
  pose proof registry_do_ov_read.
  pose proof registry_do_ndspChnWaveBufAdd.
  unfold myNdspCallback. keeps_all.
Qed.

(** *** The [playing] of [main.c]: nothing in [player.c] can name it *)

Lemma main_playing_playerStop : keeps main_playing playerStop.
Proof. unfold playerStop, do_ov_clear. keeps_all. Qed.

Lemma main_playing_playerPlay (index : Z) : keeps main_playing (playerPlay index).
Proof.
  pose proof main_playing_playerStop.
  unfold playerPlay, do_ov_open_callbacks, do_ndspChnWaveBufAdd. keeps_all.
Qed.

Lemma main_playing_playerInit : keeps main_playing playerInit.
Proof. unfold playerInit. keeps_all. Qed.

Lemma main_playing_playerExit : keeps main_playing playerExit.
Proof.
  pose proof main_playing_playerStop. unfold playerExit. keeps_all.
Qed.

Lemma main_playing_myNdspCallback : keeps main_playing myNdspCallback.
Proof.
  unfold myNdspCallback, do_ov_read, do_ndspChnWaveBufAdd. keeps_all.
Qed.

(** *** Stopping neither decodes nor submits *)

Lemma decodes_playerStop : keeps decodes playerStop.
Proof. unfold playerStop, do_ov_clear. keeps_all. Qed.

Lemma submissions_playerStop : keeps submissions playerStop.
Proof. unfold playerStop, do_ov_clear. keeps_all. Qed.

End PlayerFacts.

Section ControlFacts.

Context {P : Platform}.
Local Open Scope player_scope.

Lemma bind_Done {A B : Type} (m : M A) (f : A -> M B) (st st' : State) (a : A) :
  m st = Done a st' -> bind m f st = f a st'.
Proof. intros H. unfold bind. now rewrite H. Qed.

Lemma bind_Undefined {A B : Type} (m : M A) (f : A -> M B) (st st' : State) :
  m st = Undefined st' -> bind m f st = Undefined st'.
Proof. intros H. unfold bind. now rewrite H. Qed.

Lemma reset_track_offset_outside (index : Z) (st : State) :
  get_track index (tracks st) = None ->
  reset_track_offset index st = Undefined st.
Proof.
  intros H. unfold reset_track_offset, bind, get, undefined. now rewrite H.
Qed.

Lemma reset_track_offset_inside (index : Z) (st : State) (track : Track) :
  get_track index (tracks st) = Some track ->
  reset_track_offset index st =
    Done tt (set_tracks (set_track index (set_offset 0 track) (tracks st)) st).
Proof.
  intros H. unfold reset_track_offset, bind, get, modify. now rewrite H.
Qed.

Lemma playerStop_when_stopped (st : State) :
  playing st = false -> playerStop st = Done tt st.
Proof.
  intros Hst. unfold playerStop, bind, get. now rewrite Hst.
Qed.

Lemma playerStop_leaves_stopped (st st' : State) (u : unit) :
  playerStop st = Done u st' -> playing st' = false.
Proof.
  unfold playerStop, bind, get, modify, ret.
  destruct (playing st) eqn:Hst; simpl.
  - destruct (do_ov_clear st) as [u1 st1 | st1]; [| discriminate].
    intros H. inversion H; subst. reflexivity.
  - intros H. inversion H; subst. exact Hst.
Qed.

Lemma stopped_first_leaves_stopped (st st0 : State) :
  stopped_first st = Done tt st0 -> playing st0 = false.
Proof.
  unfold stopped_first. destruct (playing st) eqn:Hst.
  - apply playerStop_leaves_stopped.
  - intros H. inversion H; subst. exact Hst.
Qed.

Lemma stopped_first_counts (st st0 : State) :
  stopped_first st = Done tt st0 ->
  decodes st0 = decodes st /\ submissions st0 = submissions st.
Proof.
  unfold stopped_first. destruct (playing st).
  - intros H.
    pose proof (decodes_playerStop st) as Hd.
    pose proof (submissions_playerStop st) as Hs.
    rewrite H in Hd, Hs. simpl in Hd, Hs. now split.
  - intros H. inversion H; subst. now split.
Qed.

Lemma myNdspCallback_when_stopped (st : State) :
  playing st = false -> myNdspCallback st = Done tt st.
Proof.
  intros Hst. unfold myNdspCallback, bind, get. now rewrite Hst.
Qed.

(** What a decode request leaves apart from the decoder and the cursor. *)
Lemma do_ov_read_effect (st st1 : State) (r : Z) :
  do_ov_read st = Done r st1 ->
  calls st1 = call_ov_read :: calls st /\
  playing st1 = playing st /\
  waveBuf st1 = waveBuf st /\
  audio_buffer st1 = audio_buffer st.
Proof.
  unfold do_ov_read, bind, get, modify, ret, call_library. simpl.
  destruct (datasource (vf st)) as [i |].
  - destruct (get_track i (tracks st)) as [track |]; [| discriminate].
    destruct (run_lib (ov_read (handle (vf st))) track) as [[rd track'] |];
      [| discriminate].
    simpl. intros H. inversion H; subst. now repeat split.
  - destruct (ov_read (handle (vf st))); try discriminate.
    intros H. inversion H; subst. now repeat split.
Qed.

(** Once stopped, nothing the DSP service or the callback does submits,
    decodes or restarts. *)
Lemma run_later_when_stopped (steps : list later_step) :
  forall st, playing st = false ->
    exists st', run_later steps st = Done tt st' /\
                playing st' = false /\
                calls st' = calls st.
Proof.
  induction steps as [| step rest IH]; intros st Hst.
  - exists st. now repeat split.
  - destruct step as [s |]; simpl; unfold bind.
    + unfold modify.
      destruct (IH (dsp_sets_status s st) Hst) as (st' & Hrun & Hp & Hc).
      exists st'. now repeat split.
    + rewrite (myNdspCallback_when_stopped st Hst).
      exact (IH st Hst).
Qed.



(** [playerIsPlaying] after [playerPlay]: the answer is the [playing] of
    [main.c] as it was before the call. *)
Lemma playerIsPlaying_after_playerPlay (index : Z) (st st' : State) :
  playerPlay index st = Done tt st' ->
  playerIsPlaying st' = Done (main_playing st) st'.
Proof.
  intros Hplay. pose proof (main_playing_playerPlay index st) as Hkeep.
  rewrite Hplay in Hkeep. simpl in Hkeep.
  unfold playerIsPlaying, bind, get, ret. now rewrite Hkeep.
Qed.

End ControlFacts.

(** C7.  [playerStop] in a state where playback is already stopped
    returns at once and changes nothing: no decoder is closed, the channel
    is not reset, no flag is written.  Hence stopping twice is the same as
    stopping once, from every state. *)
Theorem playerStop_idempotent {P : Platform} :
  (forall st : State, playing st = false -> playerStop st = Done tt st) /\
  (forall st : State, bind playerStop (fun _ => playerStop) st = playerStop st).
Proof.
  split.
  - exact playerStop_when_stopped.
  - intros st. unfold bind at 1.
    destruct (playerStop st) as [[] st' | st'] eqn:Hstop; [| reflexivity].
    apply playerStop_when_stopped.
    eapply playerStop_leaves_stopped; eassumption.
Qed.

(** C5.  When the callback runs in state Playing with the wave buffer done
    and the decode request yields no samples ([ov_read] returns 0 or an
    error), the callback sets [playing] to false and hands no wave buffer to
    the DSP.  From then on, however often the callback runs and whatever the
    DSP service writes to the descriptor's status, the state stays stopped,
    no wave buffer is submitted and no decode is requested. *)
Theorem callback_end_of_stream {P : Platform} (st st1 : State) (r : Z) :
  playing st = true ->
  status (waveBuf st) = NDSP_WBUF_DONE ->
  do_ov_read st = Done r st1 ->
  r <= 0 ->
  myNdspCallback st = Done tt (set_playing false st1) /\
  submissions (set_playing false st1) = submissions st /\
  forall steps : list later_step,
    exists st', run_later steps (set_playing false st1) = Done tt st' /\
                playing st' = false /\
                submissions st' = submissions st /\
                decodes st' = decodes st1.
Proof.
  intros Hplay Hdone Hread Hr.
  destruct (do_ov_read_effect st st1 r Hread) as (Hcalls & _ & _ & _).
  assert (Hsub : submissions (set_playing false st1) = submissions st).
  { unfold submissions. simpl. now rewrite Hcalls. }
  repeat split.
  - unfold myNdspCallback, bind at 1, get.
    rewrite Hplay, Hdone. simpl.
    unfold bind. rewrite Hread.
    replace (r <=? 0) with true by (symmetry; now apply Z.leb_le).
    reflexivity.
  - exact Hsub.
  - intros steps.
    destruct (run_later_when_stopped steps (set_playing false st1) eq_refl)
      as (st' & Hrun & Hp & Hc).
    exists st'. repeat split; trivial.
    + unfold submissions in *. now rewrite Hc.
    + unfold decodes. now rewrite Hc.
Qed.

(** C8, as amended.  The bytes and the length of every registry entry
    never change: [playerPlay], [playerStop], [playerExit], the callback and
    the cursor's read and seek leave the [data] and [size] of all three
    tracks as they were, whether they return or not.  The [offset] field,
    which the C struct keeps in the same record, is not covered: it is the
    cursor and [playerPlay], read and seek write it. *)
Theorem registry_data_and_size_never_change {P : Platform} :
  (forall (index : Z) (st : State),
      registry_content (final_state (playerPlay index st)) = registry_content st) /\
  (forall st : State,
      registry_content (final_state (playerStop st)) = registry_content st) /\
  (forall st : State,
      registry_content (final_state (playerExit st)) = registry_content st) /\
  (forall st : State,
      registry_content (final_state (myNdspCallback st)) = registry_content st) /\
  (forall sz nmemb track copied n track',
      mem_read_func sz nmemb track = Some (copied, n, track') ->
      track_content track' = track_content track) /\
  (forall off whence track r track',
      mem_seek_func off whence track = Some (r, track') ->
      track_content track' = track_content track).
Proof.
  repeat split.
  - intros index. apply registry_playerPlay.
  - apply registry_playerStop.
  - apply registry_playerExit.
  - apply registry_myNdspCallback.
  - intros sz nmemb track copied n track'. apply mem_read_func_content.
  - intros off whence track r track'. apply mem_seek_func_content.
Qed.

(** C2, as amended.  [playerPlay] has no range check and returns nothing.
    For an index outside [0, 3) the call is not rejected and the previous
    state is not kept: running playback is stopped first, [current_track] is
    overwritten with the index, and the next statement,
    [tracks[index].offset = 0], writes outside the array, which is
    undefined behaviour; the function does not return normally. *)
Theorem playerPlay_out_of_range {P : Platform} (index : Z) (st : State) :
  ~ (0 <= index < NUM_TRACKS) ->
  exists st' : State,
    playerPlay index st = Undefined st' /\
    (playing st = false -> st' = set_current_track index st) /\
    (forall st0, playing st = true -> playerStop st = Done tt st0 ->
                 st' = set_current_track index st0).
Proof.
  intros Hout. unfold playerPlay, bind at 1, get.
  destruct (playing st) eqn:Hst.
  - destruct (playerStop st) as [[] st0 | st0] eqn:Hstop.
    + exists (set_current_track index st0). repeat split.
      * rewrite (bind_Done _ _ _ _ _ Hstop).
        rewrite (bind_Done _ _ st0 (set_current_track index st0) tt eq_refl).
        apply bind_Undefined, reset_track_offset_outside.
        now apply get_track_out_of_range.
      * discriminate.
      * intros st1 _ H. now inversion H.
    + exists st0. repeat split.
      * now apply bind_Undefined.
      * discriminate.
      * intros st1 _ H. discriminate.
  - exists (set_current_track index st). repeat split.
    + rewrite (bind_Done _ _ st st tt eq_refl).
      rewrite (bind_Done _ _ st (set_current_track index st) tt eq_refl).
      apply bind_Undefined, reset_track_offset_outside.
      now apply get_track_out_of_range.
    + intros st0 H. discriminate.
Qed.

Section PlayFacts.

Context {P : Platform}.

(** [playerPlay] from the point where the guard has stopped playback:
    the index is recorded, the cursor rewound, the decoder asked to open
    on the rewound track. *)
Lemma playerPlay_unfold (index : Z) (st st0 : State) (track : Track)
      (r : Z) (d : decoder) (track' : Track) :
  stopped_first st = Done tt st0 ->
  get_track index (tracks st0) = Some track ->
  run_lib ov_open_callbacks (set_offset 0 track) = Some ((r, d), track') ->
  let st1 := set_tracks (set_track index (set_offset 0 track) (tracks st0))
                        (set_current_track index st0) in
  let st2 := set_vf {| datasource := Some index; handle := d |}
               (set_tracks (set_track index track' (tracks st1))
                  (log_call (call_ov_open_callbacks index) st1)) in
  do_ov_open_callbacks index st1 = Done r st2 /\
  playerPlay index st =
    if r <? 0 then Done tt st2
    else bind (modify (fun s =>
                 set_waveBuf {| data_vaddr := audio_buffer s;
                                nsamples := 0;
                                looping := false;
                                status := NDSP_WBUF_DONE |} s))
              (fun _ => bind do_ndspChnWaveBufAdd
                          (fun _ => modify (set_playing true))) st2.
Proof.
  intros Hguard Hget Hopen st1 st2.
  assert (Hget1 : get_track index (tracks st1) = Some (set_offset 0 track)).
  { subst st1. simpl. eapply get_set_track. eassumption. }
  assert (Hrun : do_ov_open_callbacks index st1 = Done r st2).
  { unfold do_ov_open_callbacks, bind, modify, ret, call_library. simpl.
    simpl in Hget1. rewrite Hget1, Hopen. reflexivity. }
  split; [exact Hrun |].
  unfold playerPlay, bind at 1, get. unfold bind at 1.
  unfold stopped_first in Hguard.
  assert (Hpre : (if playing st then playerStop else ret tt) st = Done tt st0).
  { destruct (playing st); [exact Hguard | exact Hguard]. }
  rewrite Hpre.
  unfold bind at 1. unfold modify at 1.
  unfold bind at 1. unfold reset_track_offset, bind at 1, get.
  change (tracks (set_current_track index st0)) with (tracks st0).
  rewrite Hget. unfold modify at 1.
  fold st1. unfold bind at 1. rewrite Hrun.
  destruct (r <? 0); reflexivity.
Qed.

End PlayFacts.

(** C6, as amended.  [playerPlay], once the decoder has opened the track,
    does not decode: it zeroes the wave-buffer descriptor, points it at the
    staging buffer with a sample count of 0 and status Done, hands that
    descriptor to [ndspChnWaveBufAdd] once, and sets [playing].  No decode
    request is made before it returns; the first chunk is decoded by the
    callback, which runs when it finds Playing and a Done descriptor. *)
Theorem playerPlay_open_success {P : Platform} (index : Z) (st st0 : State)
        (track : Track) (r : Z) (d : decoder) (track' : Track) :
  stopped_first st = Done tt st0 ->
  get_track index (tracks st0) = Some track ->
  run_lib ov_open_callbacks (set_offset 0 track) = Some ((r, d), track') ->
  0 <= r ->
  let wb := {| data_vaddr := audio_buffer st0; nsamples := 0;
               looping := false; status := NDSP_WBUF_DONE |} in
  exists st' : State,
    playerPlay index st = Done tt st' /\
    playing st' = true /\
    current_track st' = index /\
    vf st' = {| datasource := Some index; handle := d |} /\
    get_track index (tracks st') = Some track' /\
    waveBuf st' = ndspChnWaveBufAdd wb /\
    calls st' = call_ndspChnWaveBufAdd wb :: call_ov_open_callbacks index :: calls st0 /\
    decodes st' = decodes st /\
    submissions st' = S (submissions st).
Proof.
  intros Hguard Hget Hopen Hr wb.
  destruct (playerPlay_unfold index st st0 track r d track' Hguard Hget Hopen)
    as (_ & Hplay).
  destruct (stopped_first_counts st st0 Hguard) as (Hdec & Hsub).
  replace (r <? 0) with false in Hplay by (symmetry; now apply Z.ltb_ge).
  eexists. split; [exact Hplay |].
  unfold decodes, submissions in *. simpl.
  repeat split.
  - eapply get_set_track. eapply get_set_track. eassumption.
  - exact Hdec.
  - now rewrite Hsub.
Qed.

(** C10.  When [playerPlay(index)] fails because the decoder rejects the
    asset, the state has been changed before the failure shows:
    [current_track] is the requested index and the track's cursor was reset
    to 0 when the decoder is asked to open.  After the call playback is
    stopped, [current_track] is still the requested index (the selection
    before the call is not restored), and the cursor is where the decoder's
    header reads, started from 0, left it. *)
Theorem playerPlay_open_failure {P : Platform} (index : Z) (st st0 : State)
        (track : Track) (r : Z) (d : decoder) (track' : Track) :
  stopped_first st = Done tt st0 ->
  get_track index (tracks st0) = Some track ->
  run_lib ov_open_callbacks (set_offset 0 track) = Some ((r, d), track') ->
  r < 0 ->
  exists st1 st' : State,
    (* the state in which the decoder is asked to open *)
    st1 = set_tracks (set_track index (set_offset 0 track) (tracks st0))
                     (set_current_track index st0) /\
    current_track st1 = index /\
    get_track index (tracks st1) = Some (set_offset 0 track) /\
    do_ov_open_callbacks index st1 = Done r st' /\
    (* the state after the call *)
    playerPlay index st = Done tt st' /\
    playing st' = false /\
    current_track st' = index /\
    get_track index (tracks st') = Some track' /\
    (track' = set_offset 0 track -> exists t, get_track index (tracks st') = Some t /\ offset t = 0) /\
    submissions st' = submissions st.
Proof.
  intros Hguard Hget Hopen Hr.
  destruct (playerPlay_unfold index st st0 track r d track' Hguard Hget Hopen)
    as (Hrun & Hplay).
  destruct (stopped_first_counts st st0 Hguard) as (_ & Hsub).
  pose proof (stopped_first_leaves_stopped st st0 Hguard) as Hstopped.
  replace (r <? 0) with true in Hplay by (symmetry; now apply Z.ltb_lt).
  assert (Hget' : get_track index
            (set_track index track'
               (set_track index (set_offset 0 track) (tracks st0))) = Some track').
  { eapply get_set_track. eapply get_set_track. eassumption. }
  eexists. eexists. split; [reflexivity |].
  repeat apply conj.
  - reflexivity.
  - simpl. eapply get_set_track. eassumption.
  - exact Hrun.
  - exact Hplay.
  - exact Hstopped.
  - reflexivity.
  - exact Hget'.
  - intros ->. exists (set_offset 0 track). split; [exact Hget' | reflexivity].
  - unfold submissions in *. simpl. exact Hsub.
Qed.

(** * The program on concrete inputs *)

(** C1, the code at a failing input.  After [playerInit(); playerPlay(0)]
    on a well-formed asset, [playerIsPlaying()] returns false although the
    [playing] flag of [player.c] is true: the function is defined in
    [main.c] and returns that file's own [static bool playing], which no
    statement of the program ever writes. *)
Theorem playerIsPlaying_after_play_is_false :
  bind (playerPlay 0) (fun _ => playerIsPlaying) Demo.ready
    = Done false Demo.playing_track1 /\
  playing Demo.playing_track1 = true /\
  handle (vf Demo.playing_track1) = Demo.Open /\
  ~ play_then_is_playing 0 Demo.ready.
Proof.
  assert (H : bind (playerPlay 0) (fun _ => playerIsPlaying) Demo.ready
              = Done false Demo.playing_track1) by (vm_compute; reflexivity).
  repeat apply conj.
  - exact H.
  - reflexivity.
  - reflexivity.
  - intros (st' & Hst'). rewrite H in Hst'. discriminate.
Qed.

(** C3, the code at a failing input.  On a ten-byte track with the cursor
    at 5, [mem_seek_func(track, -10, SEEK_CUR)] asks for the offset -5; the
    code tests only the upper bound, returns 0 (success) and stores the
    wrapped value 4294967291 in the cursor. *)
Theorem mem_seek_func_SEEK_CUR_accepts_negative :
  seek_candidate (-10) SEEK_CUR Demo.ten_bytes = -5 /\
  mem_seek_func (-10) SEEK_CUR Demo.ten_bytes
    = Some (0, set_offset 4294967291 Demo.ten_bytes) /\
  ~ seek_contract (-10) SEEK_CUR Demo.ten_bytes.
Proof.
  repeat apply conj.
  - reflexivity.
  - reflexivity.
  - intros (r & track' & Hseek & Hiff & _).
    vm_compute in Hseek. inversion Hseek; subst.
    destruct Hiff as (Hin & _). specialize (Hin eq_refl).
    vm_compute in Hin. destruct Hin as (Hlow & _). now apply Hlow.
Qed.

(** C4, counterexample.  Reading two 2-byte elements from a ten-byte track
    with the cursor at 5 copies 4 bytes and advances the cursor by 4, but
    returns 2, the number of elements, not the byte count 4. *)
Lemma mem_read_func_returns_elements :
  mem_read_func 2 2 Demo.ten_bytes
    = Some ([x05; x06; x07; x08], 2, set_offset 9 Demo.ten_bytes) /\
  ~ read_contract 2 2 Demo.ten_bytes.
Proof.
  split.
  - reflexivity.
  - unfold read_contract. vm_compute. discriminate.
Qed.

(** The request that wraps: the guard [offset + bytes_to_read > size] is
    computed in [size_t], so a byte count of 2^32 - 1 passes it and the copy
    leaves the data array. *)
Lemma mem_read_func_wraps :
  mem_read_func 1 4294967295 Demo.ten_bytes = None.
Proof. reflexivity. Qed.

(** C2, counterexample.  While track 1 plays, [playerPlay(7)] does not come
    back with the state untouched: playback has been stopped, the decoder
    closed and [current_track] set to 7 when the array is indexed out of
    range. *)
Lemma playerPlay_out_of_range_changes_state :
  ~ play_rejected_unchanged 7 Demo.playing_track1 /\
  playing Demo.playing_track1 = true /\
  playing (final_state (playerPlay 7 Demo.playing_track1)) = false /\
  current_track Demo.playing_track1 = 0 /\
  current_track (final_state (playerPlay 7 Demo.playing_track1)) = 7 /\
  handle (vf Demo.playing_track1) = Demo.Open /\
  handle (vf (final_state (playerPlay 7 Demo.playing_track1))) = Demo.Closed.
Proof.
  repeat apply conj; try (vm_compute; reflexivity).
  intros (st' & Hplay & _). vm_compute in Hplay. discriminate.
Qed.

(** C6, counterexample.  [playerInit(); playerPlay(0)] on a well-formed
    asset returns with no decode request made: the one descriptor handed to
    the DSP carries 0 samples. *)
Lemma playerPlay_does_not_decode :
  ~ play_primes_by_decoding 0 Demo.ready /\
  decodes (final_state (playerPlay 0 Demo.ready)) = 0%nat /\
  calls (final_state (playerPlay 0 Demo.ready))
    = call_ndspChnWaveBufAdd
        {| data_vaddr := 4096; nsamples := 0; looping := false;
           status := NDSP_WBUF_DONE |}
      :: call_ov_open_callbacks 0 :: calls Demo.ready.
Proof.
  repeat apply conj; try (vm_compute; reflexivity).
  intros (st' & Hplay & _ & Hdec & _).
  vm_compute in Hplay. inversion Hplay; subst. vm_compute in Hdec. discriminate.
Qed.

(** C8, counterexample.  The callback moves the cursor stored in the
    registry entry of track 1 from 4 to 8, and playing the track again
    rewinds it: the entry is not what it was. *)
Lemma registry_entry_offset_changes :
  ~ registry_entries_unchanged (playerPlay 0) Demo.after_one_refill /\
  ~ registry_entries_unchanged myNdspCallback Demo.playing_track1 /\
  offset (track_0 (tracks Demo.playing_track1)) = 4 /\
  offset (track_0 (tracks Demo.after_one_refill)) = 8 /\
  offset (track_0 (tracks (final_state (playerPlay 0 Demo.after_one_refill)))) = 4.
Proof.
  repeat apply conj; try (vm_compute; reflexivity);
    unfold registry_entries_unchanged; vm_compute; discriminate.
Qed.

(** * The theorems at concrete inputs *)

(** [mem_read_func_spec] on the ten-byte track: four single bytes from the
    cursor at 5. *)
Lemma mem_read_func_spec_witness :
  mem_read_func 1 4 Demo.ten_bytes
    = Some ([x05; x06; x07; x08], 4, set_offset 9 Demo.ten_bytes).
Proof.
  refine (proj1 (mem_read_func_spec 1 4 Demo.ten_bytes _ _ _ _)).
  - unfold track_ok, SIZE_MODULUS. simpl. lia.
  - lia.
  - lia.
  - unfold SIZE_MODULUS. simpl. lia.
Defined.

(** [playerStop_idempotent] right after [playerInit()]. *)
Lemma playerStop_idempotent_witness :
  playerStop Demo.ready = Done tt Demo.ready.
Proof.
  apply (proj1 playerStop_idempotent Demo.ready). reflexivity.
Defined.

(** [callback_end_of_stream] on track 3, which has no audio after its
    header: the first callback ends playback. *)
Lemma callback_end_of_stream_witness :
  myNdspCallback Demo.playing_track3
    = Done tt (set_playing false Demo.track3_exhausted) /\
  submissions (set_playing false Demo.track3_exhausted)
    = submissions Demo.playing_track3.
Proof.
  destruct (callback_end_of_stream Demo.playing_track3 Demo.track3_exhausted 0)
    as (Hcb & Hsub & _).
  - reflexivity.
  - reflexivity.
  - vm_compute. reflexivity.
  - lia.
  - split; [exact Hcb | exact Hsub].
Defined.

(** [playerPlay_out_of_range] at index 7 while track 1 plays. *)
Lemma playerPlay_out_of_range_witness :
  exists st' : State, playerPlay 7 Demo.playing_track1 = Undefined st'.
Proof.
  destruct (playerPlay_out_of_range 7 Demo.playing_track1) as (st' & Hplay & _).
  - unfold NUM_TRACKS. lia.
  - exists st'. exact Hplay.
Defined.

(** [playerPlay_open_success] for track 1 right after [playerInit()]. *)
Lemma playerPlay_open_success_witness :
  exists st' : State,
    playerPlay 0 Demo.ready = Done tt st' /\
    playing st' = true /\
    decodes st' = decodes Demo.ready /\
    submissions st' = S (submissions Demo.ready).
Proof.
  destruct (playerPlay_open_success 0 Demo.ready Demo.ready
              (track_0 (tracks Demo.ready)) 0 Demo.Open
              (set_offset 4 (track_0 (tracks Demo.ready))))
    as (st' & Hplay & Hp & _ & _ & _ & _ & _ & Hdec & Hsub).
  - reflexivity.
  - reflexivity.
  - vm_compute. reflexivity.
  - lia.
  - exists st'. repeat apply conj; assumption.
Defined.

(** [playerPlay_open_failure] for track 2, which is not an Ogg stream:
    the selection moves from -1 to 1 although nothing plays, and the cursor
    ends at 4, where the header read left it. *)
Lemma playerPlay_open_failure_witness :
  exists st' : State,
    playerPlay 1 Demo.ready = Done tt st' /\
    playing st' = false /\
    current_track st' = 1 /\
    current_track Demo.ready = -1 /\
    get_track 1 (tracks st') = Some (set_offset 4 (track_1 (tracks Demo.ready))).
Proof.
  destruct (playerPlay_open_failure 1 Demo.ready Demo.ready
              (track_1 (tracks Demo.ready)) Demo.OV_ENOTVORBIS Demo.Closed
              (set_offset 4 (track_1 (tracks Demo.ready))))
    as (st1 & st' & _ & _ & _ & _ & Hplay & Hp & Hcur & Hget & _).
  - reflexivity.
  - reflexivity.
  - vm_compute. reflexivity.
  - unfold Demo.OV_ENOTVORBIS. lia.
  - exists st'. repeat apply conj; try assumption. reflexivity.
Defined.

(** * Further properties of the byte cursor *)

Section CursorMore.

(** Reading single bytes, when nothing wraps. *)
Lemma mem_read_func_bytes (n : Z) (track : Track) :
  track_ok track -> 0 <= n -> offset track + n < SIZE_MODULUS ->
  let m := Z.min n (size track - offset track) in
  mem_read_func 1 n track
    = Some (firstn (Z.to_nat m) (skipn (Z.to_nat (offset track)) (data track)),
            m, set_offset (offset track + m) track).
Proof.
  intros Hok Hn Hsum m.
  assert (Hsum' : offset track + 1 * n < SIZE_MODULUS) by lia.
  pose proof (read_clamp 1 n track Hok ltac:(lia) Hn Hsum') as Hclamp.
  rewrite Z.mul_1_l in Hclamp. fold m in Hclamp.
  destruct Hok as (Hlen & Hfit & Hcur).
  unfold mem_read_func. rewrite Z.mul_1_l, Hclamp.
  rewrite memcpy_from_inside by (subst m; lia).
  simpl (1 =? 0). cbv iota.
  rewrite to_size_t_small by (subst m; lia).
  now rewrite Z.div_1_r.
Qed.

Lemma track_ok_set_offset (o : Z) (track : Track) :
  track_ok track -> 0 <= o <= size track -> track_ok (set_offset o track).
Proof.
  intros (Hlen & Hfit & Hcur) Ho. unfold track_ok. simpl. auto.
Qed.

Lemma firstn_plus {A : Type} (a b : nat) :
  forall l : list A, firstn (a + b) l = firstn a l ++ firstn b (skipn a l).
Proof.
  induction a as [| a IH]; intros l; simpl.
  - reflexivity.
  - destruct l as [| x l]; simpl.
    + now rewrite firstn_nil.
    + now rewrite IH.
Qed.

(** [to_size_t] of a sum whose second term is reduced first. *)
Lemma to_size_t_END (sz off : Z) :
  off <= 0 -> to_size_t (- off) <= sz -> sz < SIZE_MODULUS ->
  0 <= to_size_t (sz + off) <= sz.
Proof.
  unfold to_size_t, SIZE_MODULUS. intros Hoff Hm Hfit.
  pose proof (Z.mod_pos_bound (- off) 4294967296 ltac:(lia)) as Hb.
  pose proof (Z.div_mod (- off) 4294967296 ltac:(lia)) as Hdm.
  replace (sz + off)
    with ((sz - (- off) mod 4294967296) + (- ((- off) / 4294967296)) * 4294967296)
    by lia.
  rewrite Z.mod_add by lia.
  rewrite Z.mod_small by lia. lia.
Qed.

End CursorMore.

(** X1.  A seek never moves the cursor out of the data: on a well-formed
    track, whatever the request and the mode, the track [mem_seek_func]
    leaves is well-formed again (cursor in [0, size], data and size as
    before), provided a seek relative to the current position does not ask
    for a negative offset. *)
Theorem mem_seek_func_keeps_cursor_inside (off whence r : Z) (track track' : Track) :
  track_ok track ->
  (whence = SEEK_CUR -> 0 <= offset track + off) ->
  mem_seek_func off whence track = Some (r, track') ->
  track_ok track'.
Proof.
  intros Hok Hcur Hseek. pose proof Hok as (Hlen & Hfit & Hin).
  unfold mem_seek_func in Hseek.
  destruct (Z.eqb_spec whence SEEK_SET) as [-> | _].
  - destruct (Z.gtb_spec (to_size_t off) (size track)) as [Hgt | Hle];
      inversion Hseek; subst; [exact Hok |].
    apply track_ok_set_offset; [exact Hok |].
    pose proof (Z.mod_pos_bound off SIZE_MODULUS eq_refl). unfold to_size_t in *. lia.
  - destruct (Z.eqb_spec whence SEEK_CUR) as [Hw | _].
    + specialize (Hcur Hw).
      destruct (in_int64 (offset track + off)); simpl in Hseek; [| discriminate].
      destruct (Z.gtb_spec (offset track + off) (size track)) as [Hgt | Hle];
        inversion Hseek; subst; [exact Hok |].
      apply track_ok_set_offset; [exact Hok |].
      rewrite to_size_t_small by lia. lia.
    + destruct (whence =? SEEK_END); [| inversion Hseek; subst; exact Hok].
      destruct (Z.gtb_spec off 0) as [Hpos | Hneg];
        [inversion Hseek; subst; exact Hok |].
      destruct (off =? INT64_MIN); [discriminate |].
      destruct (Z.gtb_spec (to_size_t (- off)) (size track)) as [Hgt | Hle];
        inversion Hseek; subst; [exact Hok |].
      apply track_ok_set_offset; [exact Hok |].
      now apply to_size_t_END.
Qed.

(** X2.  [mem_seek_func] answers 0 or -1 only; when it answers -1 the
    track is untouched, and a mode other than SEEK_SET, SEEK_CUR and
    SEEK_END is always answered with -1. *)
Theorem mem_seek_func_rejection (off whence r : Z) (track track' : Track) :
  mem_seek_func off whence track = Some (r, track') ->
  (r = 0 \/ (r = -1 /\ track' = track)) /\
  (whence <> SEEK_SET -> whence <> SEEK_CUR -> whence <> SEEK_END ->
   r = -1 /\ track' = track).
Proof.
  unfold mem_seek_func. intros Hseek. split.
  - repeat match type of Hseek with
           | (if ?c then _ else _) = _ => destruct c
           end;
      inversion Hseek; subst; auto; discriminate.
  - intros H0 H1 H2.
    destruct (Z.eqb_spec whence SEEK_SET); [contradiction |].
    destruct (Z.eqb_spec whence SEEK_CUR); [contradiction |].
    destruct (Z.eqb_spec whence SEEK_END); [contradiction |].
    inversion Hseek; subst. auto.
Qed.

(** X3.  Seek, then tell: an absolute seek to [x] inside a well-formed
    track succeeds and puts the cursor at [x]; [mem_tell_func] then reports
    [x] as long as [x] fits a 32-bit [long], and [x - 2^32] (a negative
    number) from 2^31 on. *)
Theorem mem_seek_func_then_tell (x : Z) (track : Track) :
  track_ok track ->
  0 <= x <= size track ->
  mem_seek_func x SEEK_SET track = Some (0, set_offset x track) /\
  mem_tell_func (set_offset x track)
    = (if x <? 2147483648 then x else x - SIZE_MODULUS).
Proof.
  intros (Hlen & Hfit & Hcur) Hx. split.
  - unfold mem_seek_func. simpl (SEEK_SET =? SEEK_SET). cbv iota.
    rewrite to_size_t_small by lia.
    destruct (Z.gtb_spec x (size track)); [lia | reflexivity].
  - unfold mem_tell_func, to_long. simpl offset.
    rewrite Z.mod_small by lia. reflexivity.
Qed.

(** X4.  For a request [off] with [size - 2^32 < off < 2^32], absolute
    and end-relative seeks succeed exactly when the requested offset lies in
    [0, size], and then the cursor is that offset; otherwise they answer -1
    and the track is untouched.  Requests outside that range are not
    covered: the conversion to the 32-bit [size_t] can let them through. *)
Theorem mem_seek_func_SET_END_decides (off whence : Z) (track : Track) :
  track_ok track ->
  whence = SEEK_SET \/ whence = SEEK_END ->
  - SIZE_MODULUS + size track < off < SIZE_MODULUS ->
  let candidate := seek_candidate off whence track in
  mem_seek_func off whence track
    = if (0 <=? candidate) && (candidate <=? size track)
      then Some (0, set_offset candidate track)
      else Some (-1, track).
Proof.
  intros (Hlen & Hfit & Hcur) Hwhence Hoff candidate. subst candidate.
  unfold mem_seek_func, seek_candidate.
  destruct Hwhence as [-> | ->].
  - simpl (SEEK_SET =? SEEK_SET). cbv iota.
    destruct (Z.leb_spec 0 off) as [Hpos | Hneg].
    + rewrite to_size_t_small by lia.
      destruct (Z.gtb_spec off (size track)), (Z.leb_spec off (size track));
        simpl; try reflexivity; lia.
    + simpl. unfold to_size_t.
      replace off with (off + SIZE_MODULUS + (-1) * SIZE_MODULUS) by lia.
      rewrite Z.mod_add by (unfold SIZE_MODULUS; lia).
      rewrite Z.mod_small by lia.
      destruct (Z.gtb_spec (off + SIZE_MODULUS) (size track)); [reflexivity | lia].
  - simpl (SEEK_END =? SEEK_SET). simpl (SEEK_END =? SEEK_CUR).
    simpl (SEEK_END =? SEEK_END). cbv iota.
    destruct (Z.gtb_spec off 0) as [Hpos | Hneg].
    + destruct (Z.leb_spec (size track + off) (size track)); [lia |].
      now rewrite andb_false_r.
    + destruct (Z.eqb_spec off INT64_MIN) as [Hmin | _];
        [unfold INT64_MIN, SIZE_MODULUS in *; lia |].
      rewrite (to_size_t_small (- off)) by lia.
      destruct (Z.gtb_spec (- off) (size track)) as [Hgt | Hle].
      * destruct (Z.leb_spec 0 (size track + off)); [lia | reflexivity].
      * rewrite to_size_t_small by lia.
        destruct (Z.leb_spec 0 (size track + off)); [| lia].
        destruct (Z.leb_spec (size track + off) (size track)); [reflexivity | lia].
Qed.

(** X5.  Reads compose: on a well-formed track, reading [a] bytes and then
    [b] bytes delivers the same bytes, in the same order, and leaves the
    same cursor as reading [a + b] bytes at once, and the two counts add up
    to the count of the single read. *)
Theorem mem_read_func_twice (a b : Z) (track : Track) :
  track_ok track -> 0 <= a -> 0 <= b ->
  offset track + a + b < SIZE_MODULUS ->
  exists c1 n1 t1 c2 n2 t2,
    mem_read_func 1 a track = Some (c1, n1, t1) /\
    mem_read_func 1 b t1 = Some (c2, n2, t2) /\
    mem_read_func 1 (a + b) track = Some (c1 ++ c2, n1 + n2, t2).
Proof.
  intros Hok Ha Hb Hsum. pose proof Hok as (Hlen & Hfit & Hcur).
  set (n1 := Z.min a (size track - offset track)).
  set (t1 := set_offset (offset track + n1) track).
  assert (Hok1 : track_ok t1) by (apply track_ok_set_offset; [exact Hok | lia]).
  set (n2 := Z.min b (size t1 - offset t1)).
  pose proof (mem_read_func_bytes a track Hok Ha ltac:(lia)) as H1.
  pose proof (mem_read_func_bytes b t1 Hok1 Hb ltac:(simpl; lia)) as H2.
  pose proof (mem_read_func_bytes (a + b) track Hok ltac:(lia) ltac:(lia)) as H3.
  cbv zeta in H1, H2, H3. fold n1 in H1. fold t1 in H1. fold n2 in H2.
  do 6 eexists. split; [exact H1 |]. split; [exact H2 |].
  rewrite H3. simpl in n2. simpl.
  assert (Hn : Z.min (a + b) (size track - offset track) = n1 + n2) by lia.
  rewrite Hn.
  replace (Z.to_nat (n1 + n2)) with (Z.to_nat n1 + Z.to_nat n2)%nat by lia.
  rewrite firstn_plus, skipn_skipn.
  replace (Z.to_nat n1 + Z.to_nat (offset track))%nat
    with (Z.to_nat (offset track + n1)) by lia.
  unfold t1, set_offset. simpl. now rewrite Z.add_assoc.
Qed.

(** X6.  Seek, then read: after an absolute seek to [x], reading [n]
    single bytes that the track still holds delivers exactly the bytes
    [data[x .. x + n)] and leaves the cursor at [x + n]. *)
Theorem mem_seek_func_then_read (x n : Z) (track : Track) :
  track_ok track -> 0 <= x -> 0 <= n -> x + n <= size track ->
  exists t1,
    mem_seek_func x SEEK_SET track = Some (0, t1) /\
    mem_read_func 1 n t1
      = Some (firstn (Z.to_nat n) (skipn (Z.to_nat x) (data track)), n,
              set_offset (x + n) track).
Proof.
  intros Hok Hx Hn Hin. pose proof Hok as (Hlen & Hfit & Hcur).
  exists (set_offset x track). split.
  - unfold mem_seek_func. simpl (SEEK_SET =? SEEK_SET). cbv iota.
    rewrite to_size_t_small by lia.
    destruct (Z.gtb_spec x (size track)); [lia | reflexivity].
  - assert (Hok1 : track_ok (set_offset x track))
      by (apply track_ok_set_offset; [exact Hok | lia]).
    rewrite (mem_read_func_bytes n (set_offset x track) Hok1 Hn)
      by (simpl; lia).
    simpl. replace (Z.min n (size track - x)) with n by lia. reflexivity.
Qed.

(** * Further properties of the player *)

Section PlayerMore.

Context {P : Platform}.
Local Open Scope player_scope.

Lemma get_track_Some_range (i : Z) (a : Tracks) (t : Track) :
  get_track i a = Some t -> 0 <= i < NUM_TRACKS.
Proof.
  unfold get_track, NUM_TRACKS.
  destruct (Z.eqb_spec i 0); [lia |].
  destruct (Z.eqb_spec i 1); [lia |].
  destruct (Z.eqb_spec i 2); [lia | discriminate].
Qed.

Lemma get_set_track_other (i j : Z) (t : Track) (a : Tracks) :
  j <> i -> get_track j (set_track i t a) = get_track j a.
Proof.
  unfold get_track, set_track. intros Hij.
  repeat match goal with
         | |- context [?x =? ?y] => destruct (Z.eqb_spec x y)
         end;
    simpl; try reflexivity; lia.
Qed.

(** A library call moves the cursor of its datasource only. *)
Lemma call_library_other_track {R : Type} (p : lib_run R) (ds : option Z)
      (j : Z) (st : State) :
  ds <> Some j ->
  get_track j (tracks (final_state (call_library p ds st))) = get_track j (tracks st).
Proof.
  intros Hds. unfold call_library.
  destruct ds as [i |]; [| destruct p; reflexivity].
  destruct (get_track i (tracks st)) as [track |]; [| reflexivity].
  destruct (run_lib p track) as [[r track'] |]; [| reflexivity].
  simpl. apply get_set_track_other. congruence.
Qed.

Lemma do_ov_read_other_track (j : Z) (st : State) :
  datasource (vf st) <> Some j ->
  get_track j (tracks (final_state (do_ov_read st))) = get_track j (tracks st).
Proof.
  intros Hds.
  pose proof (call_library_other_track (ov_read (handle (vf st)))
                (datasource (vf st)) j (log_call call_ov_read st) Hds) as H.
  unfold do_ov_read, bind, get, modify, ret. simpl.
  destruct (call_library _ _ _) as [rd st1 | st1]; exact H.
Qed.

Lemma do_ov_clear_other_track (j : Z) (st : State) :
  datasource (vf st) <> Some j ->
  get_track j (tracks (final_state (do_ov_clear st))) = get_track j (tracks st).
Proof.
  intros Hds.
  pose proof (call_library_other_track (ov_clear (handle (vf st)))
                (datasource (vf st)) j (log_call call_ov_clear st) Hds) as H.
  unfold do_ov_clear, bind, get, modify, ret. simpl.
  destruct (call_library _ _ _) as [rd st1 | st1]; exact H.
Qed.

(** What a library call leaves of the session. *)
Lemma call_library_session {R : Type} (p : lib_run R) (ds : option Z) (st : State) :
  session (final_state (call_library p ds st)) = session st /\
  vf (final_state (call_library p ds st)) = vf st /\
  calls (final_state (call_library p ds st)) = calls st.
Proof.
  unfold call_library.
  destruct ds as [i |]; [| destruct p; now repeat split].
  destruct (get_track i (tracks st)) as [track |]; [| now repeat split].
  destruct (run_lib p track) as [[r track'] |]; now repeat split.
Qed.

Lemma do_ov_read_session (st : State) :
  session (final_state (do_ov_read st)) = session st.
Proof.
  destruct (call_library_session (ov_read (handle (vf st))) (datasource (vf st))
              (log_call call_ov_read st)) as (Hs & _ & _).
  unfold do_ov_read, bind, get, modify, ret. simpl.
  destruct (call_library _ _ _) as [rd st1 | st1]; simpl in *; [| exact Hs].
  unfold session in *. simpl in *. congruence.
Qed.

Lemma do_ov_clear_session (st : State) :
  session (final_state (do_ov_clear st)) = session st /\
  calls (final_state (do_ov_clear st)) = call_ov_clear :: calls st.
Proof.
  destruct (call_library_session (ov_clear (handle (vf st))) (datasource (vf st))
              (log_call call_ov_clear st)) as (Hs & _ & Hc).
  unfold do_ov_clear, bind, get, modify, ret. simpl.
  destruct (call_library _ _ _) as [rd st1 | st1]; simpl in *.
  - unfold session in *. simpl in *. split; congruence.
  - now split.
Qed.

(** [playerStop] from a playing state, when the decoder lets go. *)
Lemma playerStop_run (st st0 : State) :
  playing st = true ->
  playerStop st = Done tt st0 ->
  playing st0 = false /\
  current_track st0 = current_track st /\
  datasource (vf st0) = datasource (vf st) /\
  calls st0 = call_ndspChnReset :: call_ov_clear :: calls st.
Proof.
  intros Hplay. destruct (do_ov_clear_session st) as (Hs & Hc).
  unfold playerStop, bind at 1, get. rewrite Hplay. simpl.
  unfold bind at 1.
  destruct (do_ov_clear st) as [u st1 | st1]; [| discriminate].
  simpl in Hs, Hc. unfold bind, modify. intros H. inversion H; subst; clear H.
  unfold session in Hs. simpl. inversion Hs. now rewrite Hc.
Qed.

(** [playerPlay] while something plays is [playerStop] followed by
    [playerPlay] in the stopped state. *)
Lemma playerPlay_after_stop (index : Z) (st : State) :
  playing st = true ->
  playerPlay index st = bind playerStop (fun _ => playerPlay index) st.
Proof.
  intros Hplay.
  destruct (playerStop st) as [[] st0 | st0] eqn:Hstop.
  - rewrite (bind_Done playerStop _ st st0 tt Hstop).
    pose proof (playerStop_leaves_stopped st st0 tt Hstop) as Hst0.
    unfold playerPlay at 2. unfold bind at 1, get. rewrite Hst0.
    rewrite (bind_Done (ret tt) _ st0 st0 tt eq_refl).
    unfold playerPlay, bind at 1, get. rewrite Hplay.
    now rewrite (bind_Done playerStop _ st st0 tt Hstop).
  - rewrite (bind_Undefined playerStop _ st st0 Hstop).
    unfold playerPlay, bind at 1, get. rewrite Hplay.
    now rewrite (bind_Undefined playerStop _ st st0 Hstop).
Qed.

(** Stopping leaves the staging buffer and the initialization flag alone. *)
Lemma keeps_playerStop_buffer (st : State) :
  (audio_initialized (final_state (playerStop st)),
   audio_buffer (final_state (playerStop st)))
  = (audio_initialized st, audio_buffer st).
Proof.
  cbv [playerStop bind do_ov_clear modify get ret call_library].
  destruct (playing st); simpl; [| reflexivity].
  destruct (datasource (vf st)) as [i |].
  - destruct (get_track i (tracks st)) as [track |]; [| reflexivity].
    destruct (run_lib (ov_clear (handle (vf st))) track) as [[d t] |]; reflexivity.
  - destruct (ov_clear (handle (vf st))); reflexivity.
Qed.

Lemma do_ov_open_callbacks_run (index : Z) (st : State) (track track' : Track)
      (r : Z) (d : decoder) :
  get_track index (tracks st) = Some track ->
  run_lib ov_open_callbacks track = Some ((r, d), track') ->
  do_ov_open_callbacks index st
    = Done r (set_vf {| datasource := Some index; handle := d |}
                (set_tracks (set_track index track' (tracks st))
                   (log_call (call_ov_open_callbacks index) st))).
Proof.
  intros Hget Hrun.
  unfold do_ov_open_callbacks, bind, modify, ret, call_library. simpl.
  now rewrite Hget, Hrun.
Qed.

Lemma do_ov_open_callbacks_undefined (index : Z) (st : State) (track : Track) :
  get_track index (tracks st) = Some track ->
  run_lib ov_open_callbacks track = None ->
  do_ov_open_callbacks index st = Undefined (log_call (call_ov_open_callbacks index) st).
Proof.
  intros Hget Hrun.
  unfold do_ov_open_callbacks, bind, modify, ret, call_library. simpl.
  now rewrite Hget, Hrun.
Qed.

End PlayerMore.

Section InitFacts.

Context {P : Platform}.
Local Open Scope player_scope.

(** [playerInit] on a player that is not initialized: it goes as far as
    the [memset] when [memalign] returned NULL, and through otherwise. *)
Lemma playerInit_run (st : State) :
  audio_initialized st = false ->
  let allocated :=
    memalign (call_ndspChnReset :: call_ndspSetOutputMode :: call_ndspInit :: calls st) in
  let st_alloc :=
    set_audio_buffer allocated
      (log_call call_memalign
         (log_call call_ndspChnReset
            (log_call call_ndspSetOutputMode
               (log_call call_ndspInit
                  (set_tracks
                     {| track_0 := {| data := track1_ogg; size := track1_ogg_len; offset := 0 |};
                        track_1 := {| data := track2_ogg; size := track2_ogg_len; offset := 0 |};
                        track_2 := {| data := track3_ogg; size := track3_ogg_len; offset := 0 |} |}
                     st))))) in
  playerInit st =
    if allocated =? 0 then Undefined st_alloc
    else Done tt
           (set_audio_initialized true
              (log_call call_ndspSetCallback
                 (log_call call_ndspChnSetMix
                    (log_call call_ndspChnSetFormat
                       (log_call call_ndspChnSetRate
                          (log_call call_ndspChnSetInterp st_alloc)))))).
Proof.
  intros Hinit allocated st_alloc.
  cbv [playerInit bind get modify ret undefined]. rewrite Hinit.
  subst st_alloc allocated. simpl.
  destruct (memalign _ =? 0); reflexivity.
Qed.

Lemma playerInit_when_initialized (st : State) :
  audio_initialized st = true -> playerInit st = Done tt st.
Proof.
  intros Hinit. unfold playerInit, bind at 1, get. now rewrite Hinit.
Qed.

Lemma playerInit_sets_flag (st st' : State) :
  playerInit st = Done tt st' -> audio_initialized st' = true.
Proof.
  destruct (audio_initialized st) eqn:Hinit.
  - rewrite (playerInit_when_initialized st Hinit). intros H. now inversion H; subst.
  - rewrite (playerInit_run st Hinit).
    destruct (memalign _ =? 0); [discriminate |].
    intros H. inversion H; subst. reflexivity.
Qed.

End InitFacts.

(** X7.  [playerInit] is idempotent: once [audio_initialized] is set it
    returns at once and changes nothing (no second allocation, no second
    [ndspInit], cursors not rewound); whenever it returns the flag is set;
    so calling it twice is the same as calling it once.  On a player that
    is not initialized it returns exactly when [memalign] delivers a
    non-NULL buffer: with NULL the [memset] that follows is undefined
    behaviour. *)
Theorem playerInit_idempotent {P : Platform} :
  (forall st : State, audio_initialized st = true -> playerInit st = Done tt st) /\
  (forall st st' : State, playerInit st = Done tt st' -> audio_initialized st' = true) /\
  (forall st : State, bind playerInit (fun _ => playerInit) st = playerInit st) /\
  (forall st : State,
      audio_initialized st = false ->
      (memalign (call_ndspChnReset :: call_ndspSetOutputMode :: call_ndspInit
                   :: calls st) <> 0
       <-> exists st', playerInit st = Done tt st')).
Proof.
  repeat apply conj.
  - exact playerInit_when_initialized.
  - exact playerInit_sets_flag.
  - intros st. destruct (playerInit st) as [[] st' | st'] eqn:Hrun.
    + rewrite (bind_Done playerInit _ st st' tt Hrun).
      apply playerInit_when_initialized. eapply playerInit_sets_flag. exact Hrun.
    + now rewrite (bind_Undefined playerInit _ st st' Hrun).
  - intros st Hinit. rewrite (playerInit_run st Hinit).
    destruct (Z.eqb_spec (memalign (call_ndspChnReset :: call_ndspSetOutputMode
                                      :: call_ndspInit :: calls st)) 0) as [Hnull | Hbuf].
    + split; [intros H; contradiction | intros (st' & H); discriminate].
    + split; [intros _; eexists; reflexivity | intros _; exact Hbuf].
Qed.

Section ExitFacts.

Context {P : Platform}.
Local Open Scope player_scope.

(** [playerExit] once the guard has stopped playback. *)
Lemma playerExit_run (st st0 : State) :
  stopped_first st = Done tt st0 ->
  playerExit st =
    Done tt (if audio_initialized st0
             then set_audio_initialized false
                    (set_audio_buffer 0
                       (log_call (call_free (audio_buffer st0))
                          (log_call call_ndspExit
                             (log_call call_ndspChnReset st0))))
             else st0).
Proof.
  intros Hguard. unfold stopped_first in Hguard.
  assert (Hpre : (if playing st then playerStop else ret tt) st = Done tt st0).
  { destruct (playing st); exact Hguard. }
  unfold playerExit, bind at 1, get.
  rewrite (bind_Done _ _ st st0 tt Hpre).
  unfold bind at 1, get.
  destruct (audio_initialized st0); reflexivity.
Qed.

Lemma playerExit_returns (st st' : State) :
  playerExit st = Done tt st' -> exists st0, stopped_first st = Done tt st0.
Proof.
  unfold playerExit, bind at 1, get, stopped_first.
  destruct (playing st).
  - destruct (playerStop st) as [[] st0 | st0] eqn:Hstop.
    + intros _. now exists st0.
    + rewrite (bind_Undefined _ _ st st0 Hstop). discriminate.
  - intros _. now exists st.
Qed.

End ExitFacts.

(** X8.  Whenever [playerExit] returns, playback is stopped and the player
    is marked uninitialized; if it had been initialized, the staging buffer
    pointer is NULL and the buffer was handed to [free] after the channel
    reset and [ndspExit].  In the state it leaves, a second [playerExit] and
    the frame callback do nothing. *)
Theorem playerExit_releases {P : Platform} (st st' : State) :
  playerExit st = Done tt st' ->
  playing st' = false /\
  audio_initialized st' = false /\
  (audio_initialized st = true ->
   audio_buffer st' = 0 /\
   exists older,
     calls st' = call_free (audio_buffer st) :: call_ndspExit
                   :: call_ndspChnReset :: older) /\
  playerExit st' = Done tt st' /\
  myNdspCallback st' = Done tt st'.
Proof.
  intros Hexit.
  destruct (playerExit_returns st st' Hexit) as (st0 & Hguard).
  pose proof (stopped_first_leaves_stopped st st0 Hguard) as Hst0.
  rewrite (playerExit_run st st0 Hguard) in Hexit.
  assert (Hp : playing st' = false).
  { destruct (audio_initialized st0); inversion Hexit; subst; exact Hst0. }
  assert (Hi : audio_initialized st' = false).
  { destruct (audio_initialized st0) eqn:Hi0; inversion Hexit; subst;
      [reflexivity | exact Hi0]. }
  repeat apply conj.
  - exact Hp.
  - exact Hi.
  - intros Hinit.
    assert (Hsame : audio_initialized st0 = audio_initialized st /\
                    audio_buffer st0 = audio_buffer st).
    { unfold stopped_first in Hguard. destruct (playing st) eqn:Hplay.
      - pose proof (keeps_playerStop_buffer st) as Hk.
        rewrite Hguard in Hk. simpl in Hk. inversion Hk. now split.
      - inversion Hguard; subst. now split. }
    destruct Hsame as (Hi0 & Hb0). rewrite Hi0, Hinit in Hexit.
    inversion Hexit; subst. simpl. split; [reflexivity |].
    rewrite Hb0. eexists. reflexivity.
  - rewrite (playerExit_run st' st').
    + now rewrite Hi.
    + unfold stopped_first. now rewrite Hp.
  - now apply myNdspCallback_when_stopped.
Qed.

(** X9.  Init, then exit: from a state that is neither initialized nor
    playing, and with [memalign] delivering a non-NULL buffer,
    [playerInit(); playerExit()] returns with the player uninitialized and
    the buffer pointer NULL again, and the address handed to [free] is the
    one [memalign] returned during the init; the registry holds the three
    assets with their cursors at 0. *)
Theorem playerInit_then_playerExit {P : Platform} (st : State) :
  audio_initialized st = false ->
  playing st = false ->
  let allocated :=
    memalign (call_ndspChnReset :: call_ndspSetOutputMode :: call_ndspInit :: calls st) in
  allocated <> 0 ->
  exists st',
    bind playerInit (fun _ => playerExit) st = Done tt st' /\
    audio_initialized st' = false /\
    audio_buffer st' = 0 /\
    playing st' = false /\
    calls st' =
      call_free allocated :: call_ndspExit :: call_ndspChnReset
        :: call_ndspSetCallback :: call_ndspChnSetMix :: call_ndspChnSetFormat
        :: call_ndspChnSetRate :: call_ndspChnSetInterp :: call_memalign
        :: call_ndspChnReset :: call_ndspSetOutputMode :: call_ndspInit
        :: calls st /\
    tracks st' =
      {| track_0 := {| data := track1_ogg; size := track1_ogg_len; offset := 0 |};
         track_1 := {| data := track2_ogg; size := track2_ogg_len; offset := 0 |};
         track_2 := {| data := track3_ogg; size := track3_ogg_len; offset := 0 |} |}.
Proof.
  intros Hinit Hplay allocated Hbuf.
  pose proof (playerInit_run st Hinit) as Hrun. cbv zeta in Hrun.
  fold allocated in Hrun.
  destruct (Z.eqb_spec allocated 0) as [Hnull | _]; [contradiction |].
  rewrite (bind_Done playerInit _ st _ tt Hrun).
  rewrite playerExit_run with (st0 := set_audio_initialized true _)
    by (unfold stopped_first; simpl; now rewrite Hplay).
  eexists. split; [reflexivity |].
  simpl. repeat apply conj; trivial.
Qed.

(** X10.  The frame callback moves no cursor but the one of the track the
    decoder handle is bound to: every other entry of the registry is after
    the callback exactly what it was, cursor included. *)
Theorem myNdspCallback_other_tracks {P : Platform} (j : Z) (st : State) :
  datasource (vf st) <> Some j ->
  get_track j (tracks (final_state (myNdspCallback st))) = get_track j (tracks st).
Proof.
  intros Hds. pose proof (do_ov_read_other_track j st Hds) as Hread.
  unfold myNdspCallback, bind at 1, get.
  destruct (negb (playing st) || _); [reflexivity |].
  unfold bind at 1.
  destruct (do_ov_read st) as [r st1 | st1]; simpl in Hread; [| exact Hread].
  destruct (r <=? 0); exact Hread.
Qed.

(** X11.  [playerPlay(index)] moves no cursor but those of the track it
    opens and, when it has to stop a running playback first, of the track
    that was bound: every other entry of the registry is left exactly as it
    was. *)
Theorem playerPlay_other_tracks {P : Platform} (index j : Z) (st : State) :
  j <> index ->
  (playing st = true -> datasource (vf st) <> Some j) ->
  get_track j (tracks (final_state (playerPlay index st))) = get_track j (tracks st).
Proof.
  intros Hj Hbound.
  assert (Hstopped : forall s : State,
             playing s = false ->
             get_track j (tracks (final_state (playerPlay index s)))
             = get_track j (tracks s)).
  { intros s Hs. unfold playerPlay, bind at 1, get. rewrite Hs.
    rewrite (bind_Done (ret tt) _ s s tt eq_refl).
    rewrite (bind_Done _ _ s (set_current_track index s) tt eq_refl).
    destruct (get_track index (tracks s)) as [track |] eqn:Hget.
    - rewrite (bind_Done _ _ _ _ _
                 (reset_track_offset_inside index (set_current_track index s) track Hget)).
      set (s1 := set_tracks _ _).
      assert (Hs1 : get_track j (tracks s1) = get_track j (tracks s))
        by (apply get_set_track_other; exact Hj).
      assert (Hget1 : get_track index (tracks s1) = Some (set_offset 0 track))
        by (eapply get_set_track; exact Hget).
      destruct (run_lib ov_open_callbacks (set_offset 0 track))
        as [[[r d] track'] |] eqn:Hopen.
      + rewrite (bind_Done _ _ _ _ _
                   (do_ov_open_callbacks_run index s1 _ track' r d Hget1 Hopen)).
        assert (Hs2 : get_track j (set_track index track' (tracks s1))
                      = get_track j (tracks s))
          by (rewrite get_set_track_other by exact Hj; exact Hs1).
        destruct (r <? 0); exact Hs2.
      + rewrite (bind_Undefined _ _ _ _
                   (do_ov_open_callbacks_undefined index s1 _ Hget1 Hopen)).
        exact Hs1.
    - rewrite (bind_Undefined _ _ _ _
                 (reset_track_offset_outside index (set_current_track index s) Hget)).
      reflexivity. }
  destruct (playing st) eqn:Hplay; [| now apply Hstopped].
  rewrite (playerPlay_after_stop index st Hplay).
  assert (Hclear : get_track j (tracks (final_state (playerStop st)))
                   = get_track j (tracks st)).
  { pose proof (do_ov_clear_other_track j st (Hbound eq_refl)) as Hc.
    unfold playerStop, bind at 1, get. rewrite Hplay. simpl.
    unfold bind at 1.
    destruct (do_ov_clear st) as [u s1 | s1]; exact Hc. }
  destruct (playerStop st) as [[] st0 | st0] eqn:Hstop; simpl in Hclear.
  - rewrite (bind_Done playerStop _ st st0 tt Hstop).
    rewrite Hstopped by (eapply playerStop_leaves_stopped; exact Hstop).
    exact Hclear.
  - rewrite (bind_Undefined playerStop _ st st0 Hstop). exact Hclear.
Qed.

(** X12.  The refill path of the callback: in state Playing with a Done
    descriptor, when the decoder delivers [r > 0] bytes, the callback keeps
    playing, rewrites the descriptor with the staging buffer address,
    [r / 4] samples (two channels of 16 bits), no looping, and hands exactly
    that descriptor to the DSP once, right after the decode request. *)
Theorem myNdspCallback_refill {P : Platform} (st st1 : State) (r : Z) :
  playing st = true ->
  status (waveBuf st) = NDSP_WBUF_DONE ->
  do_ov_read st = Done r st1 ->
  0 < r < 2147483648 ->
  let wb := {| data_vaddr := audio_buffer st; nsamples := r / 4;
               looping := false; status := NDSP_WBUF_FREE |} in
  exists st',
    myNdspCallback st = Done tt st' /\
    playing st' = true /\
    waveBuf st' = ndspChnWaveBufAdd wb /\
    calls st' = call_ndspChnWaveBufAdd wb :: call_ov_read :: calls st /\
    submissions st' = S (submissions st) /\
    tracks st' = tracks st1 /\
    vf st' = vf st1.
Proof.
  intros Hplay Hdone Hread Hr wb.
  destruct (do_ov_read_effect st st1 r Hread) as (Hcalls & Hp1 & _ & Hbuf).
  assert (Hns : to_size_t r / 2 / 2 = r / 4).
  { rewrite to_size_t_small by (unfold SIZE_MODULUS; lia).
    rewrite Z.div_div by lia. reflexivity. }
  eexists. split.
  - unfold myNdspCallback, bind at 1, get. rewrite Hplay, Hdone. simpl.
    rewrite (bind_Done do_ov_read _ st st1 r Hread).
    replace (r <=? 0) with false by (symmetry; apply Z.leb_gt; lia).
    unfold bind, modify, do_ndspChnWaveBufAdd. reflexivity.
  - unfold submissions. simpl. rewrite Hns, Hbuf, Hcalls, Hp1, Hplay.
    repeat apply conj; reflexivity.
Qed.

Section SessionFacts.

Context {P : Platform}.
Local Open Scope player_scope.

Lemma myNdspCallback_exhausted (st st1 : State) (r : Z) :
  playing st = true ->
  status (waveBuf st) = NDSP_WBUF_DONE ->
  do_ov_read st = Done r st1 ->
  r <= 0 ->
  myNdspCallback st = Done tt (set_playing false st1).
Proof.
  intros Hplay Hdone Hread Hr.
  unfold myNdspCallback, bind at 1, get. rewrite Hplay, Hdone. simpl.
  rewrite (bind_Done do_ov_read _ st st1 r Hread).
  now replace (r <=? 0) with true by (symmetry; now apply Z.leb_le).
Qed.

Lemma sns_ret {A : Type} (a : A) : starts_no_session (ret a).
Proof. intros st. now right. Qed.

Lemma sns_get : starts_no_session get.
Proof. intros st. now right. Qed.

Lemma sns_modify (f : State -> State) :
  (forall st, playing (f st) = false \/ session (f st) = session st) ->
  starts_no_session (modify f).
Proof. intros Hf st. apply Hf. Qed.

Lemma sns_bind {A B : Type} (m : M A) (f : A -> M B) :
  starts_no_session m -> (forall a, starts_no_session (f a)) ->
  starts_no_session (bind m f).
Proof.
  intros Hm Hf st. unfold bind. specialize (Hm st).
  destruct (m st) as [a st' | st']; simpl in Hm; [| exact Hm].
  destruct (Hf a st') as [Hstop | Hsame]; [now left |].
  destruct Hm as [Hstop' | Hsame'].
  - left. unfold session in Hsame. inversion Hsame. congruence.
  - right. congruence.
Qed.

Lemma sns_do_ov_read : starts_no_session do_ov_read.
Proof. intros st. right. apply do_ov_read_session. Qed.

Lemma sns_do_ov_clear : starts_no_session do_ov_clear.
Proof. intros st. right. apply do_ov_clear_session. Qed.

Lemma sns_undefined {A : Type} : starts_no_session (@undefined P A).
Proof. intros st. now right. Qed.

Ltac sns_step :=
  first
    [ apply sns_ret
    | apply sns_get
    | apply sns_undefined
    | apply sns_do_ov_read
    | apply sns_do_ov_clear
    | apply sns_modify; intros ?; first [ right; reflexivity | left; reflexivity ]
    | apply sns_bind; [| intros ?]
    | match goal with
      | |- starts_no_session (if ?c then _ else _) => destruct c
      end ].

Lemma sns_playerStop : starts_no_session playerStop.
Proof. unfold playerStop. repeat first [assumption | sns_step]. Qed.

Lemma sns_myNdspCallback : starts_no_session myNdspCallback.
Proof.
  unfold myNdspCallback, do_ndspChnWaveBufAdd. repeat first [assumption | sns_step].
Qed.

Lemma sns_playerInit : starts_no_session playerInit.
Proof. unfold playerInit. repeat first [assumption | sns_step]. Qed.

Lemma sns_playerExit : starts_no_session playerExit.
Proof.
  pose proof sns_playerStop. unfold playerExit. repeat first [assumption | sns_step].
Qed.

Lemma session_bound_carried (st st' : State) :
  session_bound st ->
  playing st' = false \/ session st' = session st ->
  session_bound st'.
Proof.
  unfold session_bound, session. intros Hb [Hstop | Hsame] Hplay.
  - congruence.
  - inversion Hsame as [[Hp Hd Hc]]. rewrite Hd, Hc. apply Hb. congruence.
Qed.

Lemma session_bound_stopped (st : State) : playing st = false -> session_bound st.
Proof. unfold session_bound. congruence. Qed.

Lemma session_bound_playerPlay_stopped (index : Z) (s : State) :
  playing s = false -> session_bound (final_state (playerPlay index s)).
Proof.
  intros Hs. unfold playerPlay, bind at 1, get. rewrite Hs.
  rewrite (bind_Done (ret tt) _ s s tt eq_refl).
  rewrite (bind_Done _ _ s (set_current_track index s) tt eq_refl).
  destruct (get_track index (tracks s)) as [track |] eqn:Hget.
  - rewrite (bind_Done _ _ _ _ _
               (reset_track_offset_inside index (set_current_track index s) track Hget)).
    set (s1 := set_tracks _ _).
    assert (Hget1 : get_track index (tracks s1) = Some (set_offset 0 track))
      by (eapply get_set_track; exact Hget).
    destruct (run_lib ov_open_callbacks (set_offset 0 track))
      as [[[r d] track'] |] eqn:Hopen.
    + rewrite (bind_Done _ _ _ _ _
                 (do_ov_open_callbacks_run index s1 _ track' r d Hget1 Hopen)).
      destruct (r <? 0).
      * apply session_bound_stopped. exact Hs.
      * intros _. simpl. split; [reflexivity |].
        eapply get_track_Some_range. exact Hget.
    + rewrite (bind_Undefined _ _ _ _
                 (do_ov_open_callbacks_undefined index s1 _ Hget1 Hopen)).
      apply session_bound_stopped. exact Hs.
  - rewrite (bind_Undefined _ _ _ _
               (reset_track_offset_outside index (set_current_track index s) Hget)).
    apply session_bound_stopped. exact Hs.
Qed.

Lemma session_bound_playerPlay (index : Z) (st : State) :
  session_bound st -> session_bound (final_state (playerPlay index st)).
Proof.
  intros Hb. destruct (playing st) eqn:Hplay.
  - rewrite (playerPlay_after_stop index st Hplay).
    pose proof (sns_playerStop st) as Hquiet.
    destruct (playerStop st) as [[] st0 | st0] eqn:Hstop; simpl in Hquiet.
    + rewrite (bind_Done playerStop _ st st0 tt Hstop).
      apply session_bound_playerPlay_stopped.
      eapply playerStop_leaves_stopped. exact Hstop.
    + rewrite (bind_Undefined playerStop _ st st0 Hstop).
      eapply session_bound_carried; eassumption.
  - now apply session_bound_playerPlay_stopped.
Qed.

Lemma session_bound_run_call (c : player_call) (st : State) :
  session_bound st -> session_bound (final_state (run_call c st)).
Proof.
  intros Hb. destruct c as [| index | | | | s]; simpl.
  - eapply session_bound_carried; [exact Hb | apply sns_playerInit].
  - now apply session_bound_playerPlay.
  - eapply session_bound_carried; [exact Hb | apply sns_playerStop].
  - eapply session_bound_carried; [exact Hb | apply sns_playerExit].
  - eapply session_bound_carried; [exact Hb | apply sns_myNdspCallback].
  - eapply session_bound_carried; [exact Hb | now right].
Qed.

Lemma main_playing_run_call (c : player_call) : keeps main_playing (run_call c).
Proof.
  destruct c as [| index | | | | s]; simpl.
  - apply main_playing_playerInit.
  - apply main_playing_playerPlay.
  - apply main_playing_playerStop.
  - apply main_playing_playerExit.
  - apply main_playing_myNdspCallback.
  - apply keeps_modify. reflexivity.
Qed.

Lemma main_playing_run_calls (cs : list player_call) :
  keeps main_playing (run_calls cs).
Proof.
  induction cs as [| c rest IH]; simpl.
  - apply keeps_ret.
  - apply keeps_bind; [apply main_playing_run_call | intros _; exact IH].
Qed.

End SessionFacts.

(** X13.  Switching tracks: [playerPlay(index)] while another track plays
    first clears the old decoder handle and resets the channel, and only
    then opens the new track; when the open succeeds the outside calls are,
    in order, [ov_clear], [ndspChnReset], [ov_open_callbacks],
    [ndspChnWaveBufAdd], the handle is bound to the new track and the result
    is the one of [playerPlay(index)] in the stopped state. *)
Theorem playerPlay_switches_track {P : Platform} (index : Z) (st st0 : State)
        (track : Track) (r : Z) (d : decoder) (track' : Track) :
  playing st = true ->
  playerStop st = Done tt st0 ->
  get_track index (tracks st0) = Some track ->
  run_lib ov_open_callbacks (set_offset 0 track) = Some ((r, d), track') ->
  0 <= r ->
  let wb := {| data_vaddr := audio_buffer st; nsamples := 0;
               looping := false; status := NDSP_WBUF_DONE |} in
  exists st',
    playerPlay index st = Done tt st' /\
    playerPlay index st0 = Done tt st' /\
    playing st' = true /\
    current_track st' = index /\
    vf st' = {| datasource := Some index; handle := d |} /\
    calls st' = call_ndspChnWaveBufAdd wb :: call_ov_open_callbacks index
                  :: call_ndspChnReset :: call_ov_clear :: calls st.
Proof.
  intros Hplay Hstop Hget Hopen Hr wb.
  destruct (playerStop_run st st0 Hplay Hstop) as (Hp0 & _ & _ & Hc0).
  assert (Hbuf : audio_buffer st0 = audio_buffer st).
  { pose proof (keeps_playerStop_buffer st) as Hk. rewrite Hstop in Hk.
    simpl in Hk. now inversion Hk. }
  assert (Hguard : stopped_first st = Done tt st0)
    by (unfold stopped_first; now rewrite Hplay).
  destruct (playerPlay_unfold index st st0 track r d track' Hguard Hget Hopen)
    as (_ & Hrun).
  replace (r <? 0) with false in Hrun by (symmetry; now apply Z.ltb_ge).
  eexists. split; [exact Hrun |].
  repeat apply conj.
  - rewrite (playerPlay_after_stop index st Hplay) in Hrun.
    now rewrite (bind_Done playerStop _ st st0 tt Hstop) in Hrun.
  - reflexivity.
  - reflexivity.
  - reflexivity.
  - simpl. unfold wb. now rewrite Hbuf, Hc0.
Qed.

(** X14.  After a track has ended by itself the decoder handle is never
    cleared: the callback that finds the stream exhausted only resets
    [playing], so a [playerStop] that follows returns at once; [ov_clear]
    and [ndspChnReset] are not called and the handle stays as the last
    decode request left it. *)
Theorem end_of_stream_then_playerStop {P : Platform} (st st1 : State) (r : Z) :
  playing st = true ->
  status (waveBuf st) = NDSP_WBUF_DONE ->
  do_ov_read st = Done r st1 ->
  r <= 0 ->
  bind myNdspCallback (fun _ => playerStop) st = Done tt (set_playing false st1) /\
  calls (set_playing false st1) = call_ov_read :: calls st /\
  vf (set_playing false st1) = vf st1.
Proof.
  intros Hplay Hdone Hread Hr.
  destruct (do_ov_read_effect st st1 r Hread) as (Hcalls & _).
  repeat apply conj.
  - rewrite (bind_Done myNdspCallback _ st _ tt
               (myNdspCallback_exhausted st st1 r Hplay Hdone Hread Hr)).
    now apply playerStop_when_stopped.
  - exact Hcalls.
  - reflexivity.
Qed.

(** X15.  In every state the program can reach, whenever [playing] is set
    the decoder handle is bound to [&tracks[current_track]] and
    [current_track] indexes the array: the property holds at program start
    and is kept by every series of [playerInit], [playerPlay] (with any
    index), [playerStop], [playerExit], callback runs and status writes of
    the DSP, also when a call ends in undefined behaviour. *)
Theorem run_calls_session_bound {P : Platform} (cs : list player_call) (st : State) :
  session_bound st -> session_bound (final_state (run_calls cs st)).
Proof.
  revert st. induction cs as [| c rest IH]; intros st Hb; simpl.
  - exact Hb.
  - pose proof (session_bound_run_call c st Hb) as Hc.
    unfold bind. destruct (run_call c st) as [[] st' | st']; simpl in Hc.
    + now apply IH.
    + exact Hc.
Qed.

(** X16.  Nothing the program does changes the answer of
    [playerIsPlaying]: after any series of control calls, callback runs
    and status writes, it returns what it returned before them. *)
Theorem playerIsPlaying_constant {P : Platform} (cs : list player_call) (st : State) :
  match bind (run_calls cs) (fun _ => playerIsPlaying) st with
  | Done b _ => b = main_playing st
  | Undefined _ => True
  end.
Proof.
  pose proof (main_playing_run_calls cs st) as Hkeep.
  unfold bind. destruct (run_calls cs st) as [[] st' | st']; simpl in Hkeep.
  - unfold playerIsPlaying, bind, get, ret. exact Hkeep.
  - exact I.
Qed.

(** * Properties of the interface loop *)

Section InterfaceFacts.

Lemma select_next_in_range (s : Z) :
  0 <= s < NUM_TRACKS -> 0 <= select_next s < NUM_TRACKS.
Proof.
  unfold select_next, NUM_TRACKS. intros Hs.
  assert (Hcases : s = 0 \/ s = 1 \/ s = 2) by lia.
  destruct Hcases as [-> | [-> | ->]]; vm_compute; intuition discriminate.
Qed.

Lemma select_prev_in_range (s : Z) :
  0 <= s < NUM_TRACKS -> 0 <= select_prev s < NUM_TRACKS.
Proof.
  unfold select_prev, NUM_TRACKS. intros Hs.
  assert (Hcases : s = 0 \/ s = 1 \/ s = 2) by lia.
  destruct Hcases as [-> | [-> | ->]]; vm_compute; intuition discriminate.
Qed.

Lemma press_all_in_range (keys : list dpad_key) :
  forall s, 0 <= s < NUM_TRACKS -> 0 <= press_all keys s < NUM_TRACKS.
Proof.
  unfold press_all. induction keys as [| k rest IH]; intros s Hs; simpl.
  - exact Hs.
  - apply IH. destruct k; [now apply select_next_in_range | now apply select_prev_in_range].
Qed.

(** What is drawn, without the positions. *)
Lemma debug_log_scrolls (m : list byte) (s : DebugLog) :
  debugLog_ok s ->
  exists s',
    debug_log m s = Some s' /\
    debugLog_ok s' /\
    map snd (render_debug_log s')
      = tl (map snd (render_debug_log s)) ++ [vsnprintf_line m].
Proof.
  destruct s as [lines idx].
  unfold debugLog_ok, debug_log, render_debug_log, DEBUG_LOG_LINES. simpl.
  intros (Hlen & Hidx).
  do 9 (destruct lines as [| ? lines]; try discriminate).
  clear Hlen. generalize (vsnprintf_line m) as line. intros line.
  assert (Hcases : idx = 0 \/ idx = 1 \/ idx = 2 \/ idx = 3 \/
                   idx = 4 \/ idx = 5 \/ idx = 6 \/ idx = 7) by lia.
  destruct Hcases as [-> | [-> | [-> | [-> | [-> | [-> | [-> | ->]]]]]]];
    (eexists; split;
     [ unfold store_line; simpl; reflexivity
     | split; [ split; [reflexivity | vm_compute; intuition discriminate]
              | reflexivity ] ]).
Qed.

End InterfaceFacts.

(** X17.  The d-pad selection always indexes the track table: starting
    from a valid index, any series of left and right presses leaves
    [selectedTrack] in [0, 3); right wraps from the last track to the
    first, left from the first to the last, and each undoes the other. *)
Theorem selectedTrack_stays_valid (s : Z) :
  0 <= s < NUM_TRACKS ->
  (forall keys, 0 <= press_all keys s < NUM_TRACKS) /\
  select_next (NUM_TRACKS - 1) = 0 /\
  select_prev 0 = NUM_TRACKS - 1 /\
  select_prev (select_next s) = s /\
  select_next (select_prev s) = s.
Proof.
  intros Hs. repeat apply conj.
  - intros keys. now apply press_all_in_range.
  - reflexivity.
  - reflexivity.
  - unfold NUM_TRACKS in Hs.
    assert (Hcases : s = 0 \/ s = 1 \/ s = 2) by lia.
    destruct Hcases as [-> | [-> | ->]]; reflexivity.
  - unfold NUM_TRACKS in Hs.
    assert (Hcases : s = 0 \/ s = 1 \/ s = 2) by lia.
    destruct Hcases as [-> | [-> | ->]]; reflexivity.
Qed.

(** X18.  The on-screen log is a ring of the last eight messages: after
    any number of [debug_log] calls on a well-formed log, the log is
    well-formed again and [render_debug_log] draws, top to bottom, what it
    drew before followed by the new messages (each cut to 63 bytes and
    ending at its first NUL, as the C string does),
    with as many of the oldest lines dropped as messages were added; the
    baselines are 10, 26, ..., 122 whatever the contents. *)
Theorem debug_log_shows_latest (messages : list (list byte)) (s : DebugLog) :
  debugLog_ok s ->
  exists s',
    debug_log_all messages s = Some s' /\
    debugLog_ok s' /\
    map snd (render_debug_log s')
      = skipn (length messages)
          (map snd (render_debug_log s) ++ map vsnprintf_line messages) /\
    map fst (render_debug_log s') = [10; 26; 42; 58; 74; 90; 106; 122].
Proof.
  revert s. induction messages as [| m rest IH]; intros s Hok.
  - exists s. split; [reflexivity |]. split; [exact Hok |]. split.
    + cbn [length skipn map]. now rewrite app_nil_r.
    + reflexivity.
  - destruct (debug_log_scrolls m s Hok) as (s1 & Hlog & Hok1 & Hdraw).
    destruct (IH s1 Hok1) as (s' & Hall & Hok' & Hdraw' & Hpos).
    exists s'. split; [| split; [exact Hok' | split; [| exact Hpos]]].
    + simpl. now rewrite Hlog.
    + assert (HR : exists x R', map snd (render_debug_log s) = x :: R')
        by (unfold render_debug_log; simpl; eauto).
      destruct HR as (x & R' & HR).
      rewrite Hdraw', Hdraw, HR. cbn [tl]. rewrite <- app_assoc. reflexivity.
Qed.

(** * The further properties at concrete inputs *)

(** [mem_seek_func_keeps_cursor_inside]: a seek to the end of the
    ten-byte track. *)
Lemma mem_seek_func_keeps_cursor_inside_witness :
  track_ok (set_offset 10 Demo.ten_bytes).
Proof.
  apply (mem_seek_func_keeps_cursor_inside 0 SEEK_END 0 Demo.ten_bytes).
  - unfold track_ok, SIZE_MODULUS. simpl. lia.
  - discriminate.
  - reflexivity.
Defined.

(** [mem_seek_func_rejection]: mode 9 does not exist. *)
Lemma mem_seek_func_rejection_witness :
  (-1 = 0 \/ (-1 = -1 /\ Demo.ten_bytes = Demo.ten_bytes)) /\
  (9 <> SEEK_SET -> 9 <> SEEK_CUR -> 9 <> SEEK_END ->
   -1 = -1 /\ Demo.ten_bytes = Demo.ten_bytes).
Proof.
  apply (mem_seek_func_rejection 3 9 (-1) Demo.ten_bytes Demo.ten_bytes).
  reflexivity.
Defined.

(** [mem_seek_func_then_tell]: seek to 7, tell 7. *)
Lemma mem_seek_func_then_tell_witness :
  mem_seek_func 7 SEEK_SET Demo.ten_bytes = Some (0, set_offset 7 Demo.ten_bytes) /\
  mem_tell_func (set_offset 7 Demo.ten_bytes) = 7.
Proof.
  apply (mem_seek_func_then_tell 7 Demo.ten_bytes).
  - unfold track_ok, SIZE_MODULUS. simpl. lia.
  - simpl. lia.
Defined.

(** [mem_seek_func_SET_END_decides]: three bytes before the end. *)
Lemma mem_seek_func_SET_END_decides_witness :
  mem_seek_func (-3) SEEK_END Demo.ten_bytes = Some (0, set_offset 7 Demo.ten_bytes).
Proof.
  apply (mem_seek_func_SET_END_decides (-3) SEEK_END Demo.ten_bytes).
  - unfold track_ok, SIZE_MODULUS. simpl. lia.
  - now right.
  - unfold SIZE_MODULUS. simpl. lia.
Defined.

(** [mem_read_func_twice]: two bytes and two bytes are four bytes. *)
Lemma mem_read_func_twice_witness :
  exists c1 n1 t1 c2 n2 t2,
    mem_read_func 1 2 Demo.ten_bytes = Some (c1, n1, t1) /\
    mem_read_func 1 2 t1 = Some (c2, n2, t2) /\
    mem_read_func 1 (2 + 2) Demo.ten_bytes = Some (c1 ++ c2, n1 + n2, t2).
Proof.
  apply (mem_read_func_twice 2 2 Demo.ten_bytes).
  - unfold track_ok, SIZE_MODULUS. simpl. lia.
  - lia.
  - lia.
  - unfold SIZE_MODULUS. simpl. lia.
Defined.

(** [mem_seek_func_then_read]: bytes 2, 3 and 4 of the ten-byte track. *)
Lemma mem_seek_func_then_read_witness :
  exists t1,
    mem_seek_func 2 SEEK_SET Demo.ten_bytes = Some (0, t1) /\
    mem_read_func 1 3 t1 = Some ([x02; x03; x04], 3, set_offset 5 Demo.ten_bytes).
Proof.
  apply (mem_seek_func_then_read 2 3 Demo.ten_bytes).
  - unfold track_ok, SIZE_MODULUS. simpl. lia.
  - lia.
  - lia.
  - simpl. lia.
Defined.

(** [playerInit_idempotent] right after [playerInit()]. *)
Lemma playerInit_idempotent_witness :
  playerInit Demo.ready = Done tt Demo.ready.
Proof.
  apply (proj1 playerInit_idempotent Demo.ready). reflexivity.
Defined.

(** [playerExit_releases] while track 1 plays. *)
Lemma playerExit_releases_witness :
  playing (final_state (playerExit Demo.playing_track1)) = false /\
  audio_initialized (final_state (playerExit Demo.playing_track1)) = false.
Proof.
  destruct (playerExit_releases Demo.playing_track1
              (final_state (playerExit Demo.playing_track1)))
    as (Hp & Hi & _).
  - vm_compute. reflexivity.
  - split; [exact Hp | exact Hi].
Defined.

(** [playerInit_then_playerExit] at program start. *)
Lemma playerInit_then_playerExit_witness :
  exists st',
    bind playerInit (fun _ => playerExit) (@initial_state Demo.platform) = Done tt st' /\
    audio_initialized st' = false /\
    audio_buffer st' = 0.
Proof.
  destruct (playerInit_then_playerExit (@initial_state Demo.platform))
    as (st' & Hrun & Hi & Hb & _).
  - reflexivity.
  - reflexivity.
  - discriminate.
  - exists st'. repeat apply conj; assumption.
Defined.

(** [myNdspCallback_other_tracks]: track 2 while track 1 plays. *)
Lemma myNdspCallback_other_tracks_witness :
  get_track 1 (tracks (final_state (myNdspCallback Demo.playing_track1)))
  = get_track 1 (tracks Demo.playing_track1).
Proof.
  apply (myNdspCallback_other_tracks 1 Demo.playing_track1).
  vm_compute. discriminate.
Defined.

(** [playerPlay_other_tracks]: track 2 when the player switches from
    track 1 to track 3. *)
Lemma playerPlay_other_tracks_witness :
  get_track 1 (tracks (final_state (playerPlay 2 Demo.playing_track1)))
  = get_track 1 (tracks Demo.playing_track1).
Proof.
  apply (playerPlay_other_tracks 2 1 Demo.playing_track1).
  - discriminate.
  - intros _. vm_compute. discriminate.
Defined.

(** [myNdspCallback_refill]: the first refill of track 1 delivers four
    bytes, one sample. *)
Lemma myNdspCallback_refill_witness :
  exists st',
    myNdspCallback Demo.playing_track1 = Done tt st' /\
    playing st' = true /\
    submissions st' = S (submissions Demo.playing_track1).
Proof.
  destruct (myNdspCallback_refill Demo.playing_track1
              (final_state (do_ov_read Demo.playing_track1)) 4)
    as (st' & Hrun & Hp & _ & _ & Hsub & _).
  - reflexivity.
  - reflexivity.
  - vm_compute. reflexivity.
  - lia.
  - exists st'. repeat apply conj; assumption.
Defined.

(** [playerPlay_switches_track]: from track 1 to track 3. *)
Lemma playerPlay_switches_track_witness :
  exists st',
    playerPlay 2 Demo.playing_track1 = Done tt st' /\
    playing st' = true /\
    current_track st' = 2.
Proof.
  destruct (playerPlay_switches_track 2 Demo.playing_track1
              (final_state (playerStop Demo.playing_track1))
              (track_2 (tracks Demo.ready)) 0 Demo.Open
              (set_offset 4 (track_2 (tracks Demo.ready))))
    as (st' & Hrun & _ & Hp & Hc & _).
  - reflexivity.
  - vm_compute. reflexivity.
  - reflexivity.
  - vm_compute. reflexivity.
  - lia.
  - exists st'. repeat apply conj; assumption.
Defined.

(** [end_of_stream_then_playerStop] on track 3. *)
Lemma end_of_stream_then_playerStop_witness :
  bind myNdspCallback (fun _ => playerStop) Demo.playing_track3
  = Done tt (set_playing false Demo.track3_exhausted).
Proof.
  apply (end_of_stream_then_playerStop Demo.playing_track3 Demo.track3_exhausted 0).
  - reflexivity.
  - reflexivity.
  - vm_compute. reflexivity.
  - lia.
Defined.

(** [run_calls_session_bound] from program start: init, play, refill,
    switch to a broken asset, play an index that does not exist. *)
Lemma run_calls_session_bound_witness :
  session_bound
    (final_state
       (run_calls [call_playerInit; call_playerPlay 0; call_myNdspCallback;
                   call_playerPlay 1; call_playerPlay 7]
                  (@initial_state Demo.platform))).
Proof.
  apply run_calls_session_bound. intros Hplay. discriminate.
Defined.

(** [selectedTrack_stays_valid] from the initial selection 0. *)
Lemma selectedTrack_stays_valid_witness :
  (forall keys, 0 <= press_all keys 0 < NUM_TRACKS) /\
  select_next (NUM_TRACKS - 1) = 0 /\
  select_prev 0 = NUM_TRACKS - 1 /\
  select_prev (select_next 0) = 0 /\
  select_next (select_prev 0) = 0.
Proof.
  apply (selectedTrack_stays_valid 0). unfold NUM_TRACKS. lia.
Defined.

(** [debug_log_shows_latest] at program start: after nine one-letter
    messages the screen shows the last eight. *)
Lemma debug_log_shows_latest_witness :
  exists s',
    debug_log_all [[x41]; [x42]; [x43]; [x44]; [x45]; [x46]; [x47]; [x48]; [x49]]
                  debugLog_zero = Some s' /\
    map snd (render_debug_log s')
      = [[x42]; [x43]; [x44]; [x45]; [x46]; [x47]; [x48]; [x49]].
Proof.
  destruct (debug_log_shows_latest
              [[x41]; [x42]; [x43]; [x44]; [x45]; [x46]; [x47]; [x48]; [x49]]
              debugLog_zero)
    as (s' & Hall & _ & Hdraw & _).
  - unfold debugLog_ok, DEBUG_LOG_LINES. simpl. lia.
  - exists s'. split; [exact Hall | exact Hdraw].
Defined.

(** * The callback in the middle of a control function *)


Section InterleavingFacts.

Context {P : Platform}.
Local Open Scope player_scope.













(** *** Counting submissions *)








(** *** Ending stopped *)




(** *** [playerPlay]: the flag is set last *)


(** *** [playerStop]: the flag is cleared last *)



End InterleavingFacts.



